(** * ArbitraryMutation: paired valid / corrupted generators

    A shallow embedding of [src/ArbitraryMutation.ts].  A fast-check
    [Arbitrary] is embedded as a function of a retry bound and a random
    source; the combinators of the file are then ordinary functions over
    such generators, written with the same [chain] / [map] / [filter] /
    [oneof] / [constant] calls as the TypeScript. *)

From Stdlib Require Import String Ascii ZArith Lia Bool Arith PeanoNat List.
Import ListNotations.
Local Open Scope string_scope.

Set Implicit Arguments.
Set Warnings "-register-all".

(* ------------------------------------------------------------------------- *)
(** ** JavaScript values *)
(* ------------------------------------------------------------------------- *)

(** The type of text, named before the combinator [string] shadows it. *)
Abbreviation str := String.string.

(** A plain object: its own enumerable fields in insertion order (the
    order in which JavaScript lists keys that are not array indices).  Keys
    of a well-formed object are pairwise distinct ([wf_obj]). *)
Definition Obj (T : Type) : Type := list (str * T).

(** Runtime values ([unknown] in the source).  Numbers are carried by
    integers: the claims only compare numbers for identity and kind. *)
Inductive Value : Type :=
| VUndefined
| VNull
| VBool (b : bool)
| VNum (n : Z)
| VStr (s : str)
| VArr (items : list Value)
| VObj (fields : Obj Value).

(** [Literal] of [./Literal]: [string | number | boolean | null]. *)
Inductive Literal : Type :=
| LStr (s : str)
| LNum (n : Z)
| LBool (b : bool)
| LNull.

Definition of_literal (l : Literal) : Value :=
  match l with
  | LStr s => VStr s
  | LNum n => VNum n
  | LBool b => VBool b
  | LNull => VNull
  end.

(** The kinds [typeof] and [Array.isArray] tell apart. *)
Inductive Kind : Type :=
| KUndefined | KNull | KBoolean | KNumber | KString | KArray | KObject.

Definition kind (v : Value) : Kind :=
  match v with
  | VUndefined => KUndefined
  | VNull => KNull
  | VBool _ => KBoolean
  | VNum _ => KNumber
  | VStr _ => KString
  | VArr _ => KArray
  | VObj _ => KObject
  end.

(** [Object.keys(o)]. *)
Definition keys {T} (o : Obj T) : list str := List.map fst o.

Definition wf_obj {T} (o : Obj T) : Prop := NoDup (keys o).

(** [o[k]]: [None] stands for a missing field. *)
Fixpoint get {T} (o : Obj T) (k : str) : option T :=
  match o with
  | [] => None
  | (k', v) :: o' => if String.eqb k' k then Some v else get o' k
  end.

(** [o[k] = v] on a copy: an existing field keeps its place, a new one is
    added last. *)
Fixpoint assign {T} (o : Obj T) (k : str) (v : T) : Obj T :=
  match o with
  | [] => [(k, v)]
  | (k', v') :: o' =>
      if String.eqb k' k then (k', v) :: o' else (k', v') :: assign o' k v
  end.

(** The fields an object spread [{...v}] copies.  Only plain objects carry
    fields here; numbers, booleans, [null] and [undefined] have none, and the
    index properties of arrays and strings are left out. *)
Definition spread (v : Value) : Obj Value :=
  match v with
  | VObj o => o
  | _ => []
  end.

(** [{...a, ...b}] on field lists. *)
Definition assign_all {T} (a b : Obj T) : Obj T :=
  fold_left (fun acc kv => assign acc (fst kv) (snd kv)) b a.

(** [unsafeUpdateAt(i, a, as)] of fp-ts: a copy with slot [i] set; past the
    end JavaScript extends the copy, the skipped slots being [undefined]. *)
Fixpoint unsafeUpdateAt (i : nat) (a : Value) (l : list Value) : list Value :=
  match i, l with
  | O, [] => [a]
  | O, _ :: l' => a :: l'
  | S i', [] => VUndefined :: unsafeUpdateAt i' a []
  | S i', x :: l' => x :: unsafeUpdateAt i' a l'
  end.

(** [isNonEmpty] of fp-ts ([as.length > 0]). *)
Definition isNonEmpty {T} (l : list T) : bool :=
  match l with [] => false | _ :: _ => true end.

(* ------------------------------------------------------------------------- *)
(** ** The generator abstraction *)
(* ------------------------------------------------------------------------- *)

(** The random source: an unbounded stream of raw draws. *)
Definition Rand : Type := nat -> nat.

Definition shift (s : Rand) : Rand := fun n => s (S n).

(** A finite prefix continued by zeros, for running generators on concrete
    sources. *)
Definition seed_of (l : list nat) : Rand := fun n => nth n l 0.

Inductive Err : Type :=
| Exhausted   (* a filter ran out of attempts *)
| TypeError.  (* a JavaScript exception *)

Inductive Res (A : Type) : Type :=
| Ok (a : A) (rest : Rand)
| Fail (e : Err).

Arguments Fail {A} e.

(** A generator, given the bound on redraws of a filter and a source,
    yields a value and the rest of the source, or fails. *)
Definition Gen (A : Type) : Type := nat -> Rand -> Res A.

(** The value of one run. *)
Definition sample {A} (g : Gen A) (fuel : nat) (s : Rand) : option A :=
  match g fuel s with
  | Ok a _ => Some a
  | Fail _ => None
  end.

Module fc.

(** [fc.constant(a)]. *)
Definition constant {A} (a : A) : Gen A := fun _ s => Ok a s.

(** [g.map(f)]. *)
Definition map {A B} (g : Gen A) (f : A -> B) : Gen B :=
  fun fuel s =>
    match g fuel s with
    | Ok a s' => Ok (f a) s'
    | Fail e => Fail e
    end.

(** [g.chain(f)]: draw, then draw from the generator the value selects. *)
Definition chain {A B} (g : Gen A) (f : A -> Gen B) : Gen B :=
  fun fuel s =>
    match g fuel s with
    | Ok a s' => f a fuel s'
    | Fail e => Fail e
    end.

(** The redraw loop of a filter, [n] attempts left. *)
Fixpoint retry {A} (n : nat) (g : Rand -> Res A) (p : A -> bool) (s : Rand)
  : Res A :=
  match n with
  | O => Fail Exhausted
  | S n' =>
      match g s with
      | Ok a s' => if p a then Ok a s' else retry n' g p s'
      | Fail e => Fail e
      end
  end.

(** [g.filter(p)]. *)
Definition filter {A} (g : Gen A) (p : A -> bool) : Gen A :=
  fun fuel s => retry fuel (g fuel) p s.

(** The member a raw draw [x] selects among [l]. *)
Definition pick {A} (l : list A) (x : nat) : option A :=
  nth_error l (x mod length l).

(** [fc.oneof(...gs)]: one raw draw selects a member; no member is an error. *)
Definition oneof {A} (gs : list (Gen A)) : Gen A :=
  fun fuel s =>
    match pick gs (s 0) with
    | Some g => g fuel (shift s)
    | None => Fail TypeError
    end.

(** [fc.tuple(...gs)]: one draw of each, in order. *)
Fixpoint tuple {A} (gs : list (Gen A)) : Gen (list A) :=
  match gs with
  | [] => constant []
  | g :: gs' => chain g (fun a => map (tuple gs') (cons a))
  end.

(** [fc.record(fields)]: one draw for each field, in order. *)
Fixpoint record {A} (fields : Obj (Gen A)) : Gen (Obj A) :=
  match fields with
  | [] => constant []
  | (k, g) :: fields' =>
      chain g (fun a => map (record fields') (cons (k, a)))
  end.

(** [n] draws of [g]. *)
Fixpoint replicate {A} (n : nat) (g : Gen A) : Gen (list A) :=
  match n with
  | O => constant []
  | S n' => chain g (fun a => map (replicate n' g) (cons a))
  end.

(** The engine's default bound on the size of a container. *)
Definition maxLength : nat := 10.

(** A size in [0 .. maxLength]. *)
Definition size : Gen nat := fun _ s => Ok (s 0 mod S maxLength) (shift s).

(** [fc.array(g)]. *)
Definition array {A} (g : Gen A) : Gen (list A) :=
  chain size (fun n => replicate n g).

(** [fc.dictionary(k, g)]: entries are set one after the other, so a key
    drawn twice keeps its last value. *)
Definition dictionary {A} (k : Gen str) (g : Gen A) : Gen (Obj A) :=
  map (array (chain k (fun key => map g (pair key))))
      (assign_all []).

(** [fc.boolean()]. *)
Definition boolean : Gen bool := fun _ s => Ok (Nat.odd (s 0)) (shift s).

(** [fc.integer()]: a raw draw read as a signed number. *)
Definition integer : Gen Z :=
  fun _ s =>
    let x := s 0 in
    Ok (if Nat.even x then Z.of_nat (x / 2) else (- Z.of_nat (S x / 2))%Z)
       (shift s).

Definition char : Gen ascii := fun _ s => Ok (ascii_of_nat (s 0)) (shift s).

(** [fc.string()]. *)
Definition string : Gen str :=
  map (array char) (fun cs => fold_right String EmptyString cs).

End fc.

(* ------------------------------------------------------------------------- *)
(** ** The collaborators [./Guard] and [./Arbitrary] *)
(* ------------------------------------------------------------------------- *)

Module G.

(** [a === u] for a literal [a]. *)
Definition strict_eq (a : Literal) (u : Value) : bool :=
  match a, u with
  | LStr s, VStr s' => String.eqb s s'
  | LNum n, VNum n' => Z.eqb n n'
  | LBool b, VBool b' => Bool.eqb b b'
  | LNull, VNull => true
  | _, _ => false
  end.

(** Modelled from the spec: [G.guard.literal(...values).is] of [./Guard],
    which is not in src; the type guard that holds exactly of the values
    equal to one of [values]. *)
Definition literal (values : list Literal) (u : Value) : bool :=
  existsb (fun a => strict_eq a u) values.

End G.

(** [not] of fp-ts. *)
Definition not_ {T} (p : T -> bool) : T -> bool := fun x => negb (p x).

(** [nonEmpty(o)]: [Object.keys(o).length > 0]. *)
Definition nonEmpty (o : Value) : bool :=
  Nat.ltb 0 (length (keys (spread o))).

Module A.

(** Modelled from the spec: [A.string] of [./Arbitrary], which is not in
    src; the primitive generator of strings, as a generator of runtime
    values. *)
Definition string : Gen Value := fc.map fc.string VStr.

(** Modelled from the spec: [A.number]; the primitive generator of
    numbers. *)
Definition number : Gen Value := fc.map fc.integer VNum.

(** Modelled from the spec: [A.boolean]; the primitive generator of
    booleans. *)
Definition boolean : Gen Value := fc.map fc.boolean VBool.

(** Modelled from the spec: any value; only scalars are drawn here. *)
Definition anything : Gen Value :=
  fc.oneof [fc.constant VNull; boolean; number; string].

(** Modelled from the spec: a generic array. *)
Definition UnknownArray : Gen Value := fc.map (fc.array anything) VArr.

(** Modelled from the spec: a generic key-value mapping. *)
Definition UnknownRecord : Gen Value :=
  fc.map (fc.dictionary fc.string anything) VObj.

(** Modelled from the spec: uniform choice among [values]. *)
Definition literal (values : list Literal) : Gen Value :=
  fc.oneof (List.map (fun v => fc.constant (of_literal v)) values).

(** Modelled from the spec: independently draw each field's value and
    assemble the object. *)
Definition type (properties : Obj (Gen Value)) : Gen Value :=
  fc.map (fc.record properties) VObj.

(** Modelled from the spec: the fields of an optional object; each is,
    independently, present with a drawn value or absent. *)
Fixpoint partial_fields (properties : Obj (Gen Value)) : Gen (Obj Value) :=
  match properties with
  | [] => fc.constant []
  | (k, g) :: rest =>
      fc.chain fc.boolean (fun present =>
        if present
        then fc.chain g (fun v => fc.map (partial_fields rest) (cons (k, v)))
        else partial_fields rest)
  end.

(** Modelled from the spec: [A.partial]; the object of the fields that are
    present. *)
Definition partial (properties : Obj (Gen Value)) : Gen Value :=
  fc.map (partial_fields properties) VObj.

(** Modelled from the spec: a string-keyed mapping whose every value is
    drawn from [codomain]. *)
Definition record (codomain : Gen Value) : Gen Value :=
  fc.map (fc.dictionary fc.string codomain) VObj.

(** Modelled from the spec: a sequence whose every element is drawn from
    [items]. *)
Definition array (items : Gen Value) : Gen Value :=
  fc.map (fc.array items) VArr.

(** Modelled from the spec: each component drawn positionally. *)
Definition tuple (components : list (Gen Value)) : Gen Value :=
  fc.map (fc.tuple components) VArr.

(** Modelled from the spec: the structural merge of two values, read as
    the object spread [{...a, ...b}]: the fields of [a], then those of [b],
    the value of [b] winning on a common key. *)
Definition intersect (a b : Value) : Value :=
  VObj (assign_all (spread a) (spread b)).

(** Modelled from the spec: a draw of [left] merged with a draw of
    [right]. *)
Definition intersection (left right : Gen Value) : Gen Value :=
  fc.chain left (fun a => fc.map right (fun b => intersect a b)).

(** Modelled from the spec: choose one tag uniformly and draw that member. *)
Definition sum (tag : str) (members : Obj (Gen Value)) : Gen Value :=
  fc.oneof (List.map snd members).

(** Modelled from the spec: the factory is invoked on every access. *)
Definition lazy (f : unit -> Gen Value) : Gen Value :=
  fun fuel s => f tt fuel s.

(** Modelled from the spec: choose one member uniformly and draw it. *)
Definition union (members : list (Gen Value)) : Gen Value :=
  fc.oneof members.

End A.

(* ------------------------------------------------------------------------- *)
(** ** [ArbitraryMutation.ts] *)
(* ------------------------------------------------------------------------- *)

Record ArbitraryMutation : Type := make {
  (** the mutation *)
  mutation : Gen Value;
  (** the corresponding valid arbitrary *)
  arbitrary : Gen Value
}.

Module AM.

Definition literalsArbitrary : Gen Value :=
  A.union [A.string; A.number; A.boolean; fc.constant VNull].

Definition literal (values : list Literal) : ArbitraryMutation :=
  make (fc.filter literalsArbitrary (not_ (G.literal values)))
       (A.literal values).

Definition string : ArbitraryMutation :=
  make (fc.oneof [A.number; A.boolean]) A.string.

Definition number : ArbitraryMutation :=
  make (fc.oneof [A.string; A.boolean]) A.number.

Definition boolean : ArbitraryMutation :=
  make (fc.oneof [A.string; A.number;
                  fc.oneof [fc.constant (VStr "true");
                            fc.constant (VStr "false");
                            fc.constant (VStr "0");
                            fc.constant (VStr "1")]])
       A.boolean.

Definition UnknownArray : ArbitraryMutation :=
  make A.UnknownRecord A.UnknownArray.

Definition UnknownRecord : ArbitraryMutation :=
  make A.UnknownArray A.UnknownRecord.

Definition union (members : list ArbitraryMutation) : ArbitraryMutation :=
  let mutations := List.map mutation members in
  let arbitraries := List.map arbitrary members in
  make (A.union mutations) (A.union arbitraries).

Definition nullMutation : ArbitraryMutation :=
  make (fc.constant (VObj [])) (fc.constant VNull).

Definition nullable (or : ArbitraryMutation) : ArbitraryMutation :=
  union [nullMutation; or].

(** The field copies made by the [for (const k in properties)] loop. *)
Definition mutations_of (properties : Obj ArbitraryMutation) : Obj (Gen Value) :=
  List.map (fun p => (fst p, mutation (snd p))) properties.

Definition arbitraries_of (properties : Obj ArbitraryMutation) : Obj (Gen Value) :=
  List.map (fun p => (fst p, arbitrary (snd p))) properties.

(** [mutations[key].map(m => ({ ...a, [key]: m }))]; a key without a
    mutation would be a call on [undefined]. *)
Definition mutate_field (mutations : Obj (Gen Value)) (a : Value) (key : str)
  : Gen Value :=
  match get mutations key with
  | Some g => fc.map g (fun m => VObj (assign (spread a) key m))
  | None => fun _ _ => Fail TypeError
  end.

Definition type (properties : Obj ArbitraryMutation) : ArbitraryMutation :=
  let keys := keys properties in
  if Nat.eqb (length keys) 0 then
    make (fc.constant (VArr [])) (fc.constant (VObj []))
  else
    let mutations := mutations_of properties in
    let arbitraries := arbitraries_of properties in
    let key := fc.oneof (List.map (fun key => fc.constant key) keys) in
    let arbitrary := A.type arbitraries in
    make (fc.chain arbitrary (fun a =>
            fc.chain key (fun key => mutate_field mutations a key)))
         arbitrary.

Definition partial (properties : Obj ArbitraryMutation) : ArbitraryMutation :=
  let keys := keys properties in
  if Nat.eqb (length keys) 0 then
    make (fc.constant (VArr [])) (fc.constant (VObj []))
  else
    let mutations := mutations_of properties in
    let arbitraries := arbitraries_of properties in
    let key := fc.oneof (List.map (fun key => fc.constant key) keys) in
    let arbitrary := A.partial arbitraries in
    make (fc.chain (fc.filter arbitrary nonEmpty) (fun a =>
            fc.chain key (fun key => mutate_field mutations a key)))
         arbitrary.

Definition record (codomain : ArbitraryMutation) : ArbitraryMutation :=
  make (fc.filter (A.record (mutation codomain)) nonEmpty)
       (A.record (arbitrary codomain)).

(** [isNonEmpty] on a runtime value typed as an array. *)
Definition isNonEmptyArray (v : Value) : bool :=
  match v with
  | VArr l => isNonEmpty l
  | _ => false
  end.

Definition array (items : ArbitraryMutation) : ArbitraryMutation :=
  make (fc.filter (A.array (mutation items)) isNonEmptyArray)
       (A.array (arbitrary items)).

(** [mutations[i].map(m => unsafeUpdateAt(i, m, t))]; [t] is typed as an
    array, and an index without a mutation would be a call on [undefined]. *)
Definition mutate_slot (mutations : list (Gen Value)) (t : Value) (i : nat)
  : Gen Value :=
  match nth_error mutations i, t with
  | Some g, VArr l => fc.map g (fun m => VArr (unsafeUpdateAt i m l))
  | _, _ => fun _ _ => Fail TypeError
  end.

Definition tuple (components : list ArbitraryMutation) : ArbitraryMutation :=
  let arbitrary := A.tuple (List.map arbitrary components) in
  if Nat.eqb (length components) 0 then
    make (fc.constant (VObj [])) arbitrary
  else
    let mutations := List.map mutation components in
    let index := fc.oneof (List.map (fun i => fc.constant i)
                                    (seq 0 (length components))) in
    make (fc.chain arbitrary (fun t =>
            fc.chain index (fun i => mutate_slot mutations t i)))
         arbitrary.

Definition intersection (left right : ArbitraryMutation) : ArbitraryMutation :=
  make (A.intersection (mutation left) (mutation right))
       (A.intersection (arbitrary left) (arbitrary right)).

Definition sum (tag : str) (members : Obj ArbitraryMutation) : ArbitraryMutation :=
  let f := A.sum tag in
  make (f (mutations_of members)) (f (arbitraries_of members)).

Definition lazy (f : unit -> ArbitraryMutation) : ArbitraryMutation :=
  make (A.lazy (fun _ => mutation (f tt)))
       (A.lazy (fun _ => arbitrary (f tt))).

End AM.

(* ------------------------------------------------------------------------- *)
(** ** Schema nodes, their validity and their interpretation *)
(* ------------------------------------------------------------------------- *)

(** Modelled from the spec: the schema tree of the data model.  The source
    has no such type (a schema is written against the [Schemable]
    interface); the spec's deferred self-reference is not a finite tree and
    is left to the combinator [AM.lazy]. *)
Inductive SchemaNode : Type :=
| Literal_ (values : list Literal)
| StringPrim
| NumberPrim
| BooleanPrim
| UnknownArrayPrim
| UnknownRecordPrim
| Nullable (child : SchemaNode)
| ObjectRequired (fields : Obj SchemaNode)
| ObjectOptional (fields : Obj SchemaNode)
| MapOf (codomain : SchemaNode)
| TupleOf (components : list SchemaNode)
| ArrayOf (item : SchemaNode)
| Intersection (left right : SchemaNode)
| TaggedUnion (discriminator : str) (members : Obj SchemaNode)
| Union (members : list SchemaNode).

Section Forallb2.
Variables T U : Type.
Variable f : T -> U -> bool.

(** [f] holds slot by slot of two lists of the same length. *)
Fixpoint forallb2 (l : list T) (l' : list U) : bool :=
  match l, l' with
  | [], [] => true
  | x :: l, y :: l' => f x y && forallb2 l l'
  | _, _ => false
  end.

End Forallb2.

(** Modelled from the spec: structural validity of a value for a node, the
    predicate a decoder or type guard of [./Guard] (not in src) decides.
    Objects may carry fields besides the declared ones, as the merge of an
    intersection requires. *)
Fixpoint valid (n : SchemaNode) (v : Value) {struct n} : bool :=
  match n with
  | Literal_ values => G.literal values v
  | StringPrim => match v with VStr _ => true | _ => false end
  | NumberPrim => match v with VNum _ => true | _ => false end
  | BooleanPrim => match v with VBool _ => true | _ => false end
  | UnknownArrayPrim => match v with VArr _ => true | _ => false end
  | UnknownRecordPrim => match v with VObj _ => true | _ => false end
  | Nullable child =>
      match v with VNull => true | _ => valid child v end
  | ObjectRequired fields =>
      match v with
      | VObj o =>
          forallb (fun f => match get o (fst f) with
                            | Some x => valid (snd f) x
                            | None => false
                            end) fields
      | _ => false
      end
  | ObjectOptional fields =>
      match v with
      | VObj o =>
          forallb (fun f => match get o (fst f) with
                            | Some x => valid (snd f) x
                            | None => true
                            end) fields
      | _ => false
      end
  | MapOf codomain =>
      match v with
      | VObj o => forallb (fun kv => valid codomain (snd kv)) o
      | _ => false
      end
  | TupleOf components =>
      match v with
      | VArr l =>
          forallb2 valid components l
      | _ => false
      end
  | ArrayOf item =>
      match v with
      | VArr l => forallb (valid item) l
      | _ => false
      end
  | Intersection a b => valid a v && valid b v
  | TaggedUnion tag members =>
      match v with
      | VObj o =>
          match get o tag with
          | Some (VStr t) =>
              existsb (fun m => String.eqb (fst m) t && valid (snd m) v) members
          | _ => false
          end
      | _ => false
      end
  | Union members => existsb (fun m => valid m v) members
  end.

(** The interpreter binding [arbitraryMutation]: every node kind mapped to
    its builder. *)
Fixpoint interp (n : SchemaNode) : ArbitraryMutation :=
  match n with
  | Literal_ values => AM.literal values
  | StringPrim => AM.string
  | NumberPrim => AM.number
  | BooleanPrim => AM.boolean
  | UnknownArrayPrim => AM.UnknownArray
  | UnknownRecordPrim => AM.UnknownRecord
  | Nullable child => AM.nullable (interp child)
  | ObjectRequired fields =>
      AM.type (List.map (fun f => (fst f, interp (snd f))) fields)
  | ObjectOptional fields =>
      AM.partial (List.map (fun f => (fst f, interp (snd f))) fields)
  | MapOf codomain => AM.record (interp codomain)
  | TupleOf components => AM.tuple (List.map interp components)
  | ArrayOf item => AM.array (interp item)
  | Intersection a b => AM.intersection (interp a) (interp b)
  | TaggedUnion tag members =>
      AM.sum tag (List.map (fun m => (fst m, interp (snd m))) members)
  | Union members => AM.union (List.map interp members)
  end.

(** The nodes whose corruption is a wrong-kind value, a single injected
    fault or a container of faults: no choice among members ([Nullable],
    [Union], [TaggedUnion]) and no merge ([Intersection]). *)
Fixpoint plain (n : SchemaNode) : bool :=
  match n with
  | Literal_ _ | StringPrim | NumberPrim | BooleanPrim
  | UnknownArrayPrim | UnknownRecordPrim => true
  | ObjectRequired fields | ObjectOptional fields =>
      forallb (fun f => plain (snd f)) fields
  | MapOf c | ArrayOf c => plain c
  | TupleOf components => forallb plain components
  | Nullable _ | Intersection _ _ | TaggedUnion _ _ | Union _ => false
  end.

Unset Implicit Arguments.

Section SchemaNodeInduction.
Variable P : SchemaNode -> Prop.
Hypothesis HLiteral : forall values, P (Literal_ values).
Hypothesis HString : P StringPrim.
Hypothesis HNumber : P NumberPrim.
Hypothesis HBoolean : P BooleanPrim.
Hypothesis HUnknownArray : P UnknownArrayPrim.
Hypothesis HUnknownRecord : P UnknownRecordPrim.
Hypothesis HNullable : forall c, P c -> P (Nullable c).
Hypothesis HObjectRequired :
  forall fields, Forall (fun f => P (snd f)) fields -> P (ObjectRequired fields).
Hypothesis HObjectOptional :
  forall fields, Forall (fun f => P (snd f)) fields -> P (ObjectOptional fields).
Hypothesis HMapOf : forall c, P c -> P (MapOf c).
Hypothesis HTupleOf : forall cs, Forall P cs -> P (TupleOf cs).
Hypothesis HArrayOf : forall c, P c -> P (ArrayOf c).
Hypothesis HIntersection : forall a b, P a -> P b -> P (Intersection a b).
Hypothesis HTaggedUnion :
  forall tag ms, Forall (fun f => P (snd f)) ms -> P (TaggedUnion tag ms).
Hypothesis HUnion : forall ms, Forall P ms -> P (Union ms).

(** Induction over a schema tree, children of every kind included. *)
Fixpoint SchemaNode_tree_ind (n : SchemaNode) : P n :=
  let fields_ind :=
    fix fields_ind (fs : Obj SchemaNode) : Forall (fun f => P (snd f)) fs :=
      match fs with
      | [] => Forall_nil _
      | f :: fs' => Forall_cons f (SchemaNode_tree_ind (snd f)) (fields_ind fs')
      end in
  let nodes_ind :=
    fix nodes_ind (cs : list SchemaNode) : Forall P cs :=
      match cs with
      | [] => Forall_nil _
      | c :: cs' => Forall_cons c (SchemaNode_tree_ind c) (nodes_ind cs')
      end in
  match n with
  | Literal_ values => HLiteral values
  | StringPrim => HString
  | NumberPrim => HNumber
  | BooleanPrim => HBoolean
  | UnknownArrayPrim => HUnknownArray
  | UnknownRecordPrim => HUnknownRecord
  | Nullable c => HNullable c (SchemaNode_tree_ind c)
  | ObjectRequired fields => HObjectRequired fields (fields_ind fields)
  | ObjectOptional fields => HObjectOptional fields (fields_ind fields)
  | MapOf c => HMapOf c (SchemaNode_tree_ind c)
  | TupleOf cs => HTupleOf cs (nodes_ind cs)
  | ArrayOf c => HArrayOf c (SchemaNode_tree_ind c)
  | Intersection a b =>
      HIntersection a b (SchemaNode_tree_ind a) (SchemaNode_tree_ind b)
  | TaggedUnion tag ms => HTaggedUnion tag ms (fields_ind ms)
  | Union ms => HUnion ms (nodes_ind ms)
  end.

End SchemaNodeInduction.

(* ------------------------------------------------------------------------- *)
(** ** What a generator can draw *)
(* ------------------------------------------------------------------------- *)

(** Every value [g] draws satisfies [P]. *)
Definition always {T} (g : Gen T) (P : T -> Prop) : Prop :=
  forall fuel s v s', g fuel s = Ok v s' -> P v.

(** [v] is a value [g] draws. *)
Definition draws {T} (g : Gen T) (v : T) : Prop :=
  exists fuel s s', g fuel s = Ok v s'.

(** How many of the raw draws below [bound] select [a] among [l]. *)
Definition hits {T} (same : T -> T -> bool) (l : list T) (a : T) (bound : nat)
  : nat :=
  length (List.filter
            (fun x => match fc.pick l x with
                      | Some b => same a b
                      | None => false
                      end)
            (seq 0 bound)).

(** The key choice of [type] and [partial]: one raw draw [x] selects the
    key [k] among the declared [keys], every declared key being selected
    equally often over whole rounds of raw draws. *)
Definition uniform_key (declared : list str) (x : nat) (k : str) : Prop :=
  fc.pick declared x = Some k /\
  forall k' q, In k' declared ->
               hits String.eqb declared k' (q * length declared) = q.

(** The index choice of [tuple], likewise among [0 .. n-1]. *)
Definition uniform_index (n : nat) (x : nat) (i : nat) : Prop :=
  fc.pick (seq 0 n) x = Some i /\ i < n /\
  forall j q, j < n -> hits Nat.eqb (seq 0 n) j (q * n) = q.

(* ------------------------------------------------------------------------- *)
(** ** The shape of a corrupted draw *)
(* ------------------------------------------------------------------------- *)

(** What a corrupted draw [v] of [type(properties)] is: a valid instance
    [a], in which the field of one uniformly chosen declared key [k] is
    replaced by a draw [m] of that field's own mutation.  The key set is
    the declared one and every other field keeps its valid value.  The
    injected [m] is invalid for every node against which the field's
    mutation never draws a valid value, hence for the field's own node
    when it is [plain]. *)
Definition type_single_fault (properties : Obj ArbitraryMutation)
           (fuel : nat) (s : Rand) (v : Value) (s' : Rand) : Prop :=
  exists a s1 k p m,
    arbitrary (AM.type properties) fuel s = Ok (VObj a) s1 /\
    uniform_key (keys properties) (s1 0) k /\
    get properties k = Some p /\
    mutation p fuel (shift s1) = Ok m s' /\
    v = VObj (assign a k m) /\
    keys (assign a k m) = keys properties /\
    get (assign a k m) k = Some m /\
    (forall c, always (mutation p) (fun x => valid c x = false) ->
               valid c m = false) /\
    (forall c, p = interp c -> plain c = true -> valid c m = false) /\
    (forall k' p', k' <> k -> get properties k' = Some p' ->
       exists x, get (assign a k m) k' = Some x /\
                 get a k' = Some x /\
                 draws (arbitrary p') x).

(** What a corrupted draw [v] of [partial(properties)] is: a valid
    instance [a], redrawn until it is non-empty, in which one key [k],
    chosen uniformly among the declared keys (present in [a] or not), is
    set to a draw [m] of that field's own mutation; every other field of
    [a] is untouched. *)
Definition partial_single_fault (properties : Obj ArbitraryMutation)
           (fuel : nat) (s : Rand) (v : Value) (s' : Rand) : Prop :=
  exists a s1 k p m,
    fc.filter (arbitrary (AM.partial properties)) nonEmpty fuel s
      = Ok (VObj a) s1 /\
    a <> [] /\
    (forall n s0 e s0',
        arbitrary (AM.partial properties) (S n) s0 = Ok e s0' ->
        nonEmpty e = false ->
        fc.filter (arbitrary (AM.partial properties)) nonEmpty (S n) s0 =
        fc.retry n (arbitrary (AM.partial properties) (S n)) nonEmpty s0') /\
    uniform_key (keys properties) (s1 0) k /\
    get properties k = Some p /\
    mutation p fuel (shift s1) = Ok m s' /\
    v = VObj (assign a k m) /\
    get (assign a k m) k = Some m /\
    (forall k', k' <> k -> get (assign a k m) k' = get a k').

(** What a corrupted draw [v] of a tuple of arity [n >= 1] is: a valid
    tuple [t] with the slot of one uniformly chosen index [i] replaced by a
    draw [m] of that component's own mutation; the arity is kept and every
    other slot is the one of [t]. *)
Definition tuple_single_fault (components : list ArbitraryMutation)
           (fuel : nat) (s : Rand) (v : Value) (s' : Rand) : Prop :=
  exists t s1 i c m,
    arbitrary (AM.tuple components) fuel s = Ok (VArr t) s1 /\
    length t = length components /\
    uniform_index (length components) (s1 0) i /\
    nth_error components i = Some c /\
    mutation c fuel (shift s1) = Ok m s' /\
    v = VArr (unsafeUpdateAt i m t) /\
    length (unsafeUpdateAt i m t) = length components /\
    nth_error (unsafeUpdateAt i m t) i = Some m /\
    (forall j, j <> i ->
               nth_error (unsafeUpdateAt i m t) j = nth_error t j).

(** What a corrupted draw [v] of [intersection(left, right)] is: the merge
    of a draw [a] of [left]'s mutation and a draw [b] of [right]'s; under
    each key it holds the value of [b] when [b] has the key and the value
    of [a] otherwise. *)
Definition merged_mutations (left right : ArbitraryMutation)
           (fuel : nat) (s : Rand) (v : Value) (s' : Rand) : Prop :=
  exists a s1 b,
    mutation left fuel s = Ok a s1 /\
    mutation right fuel s1 = Ok b s' /\
    v = A.intersect a b /\
    (wf_obj (spread b) ->
     forall k, get (spread v) k =
               match get (spread b) k with
               | Some x => Some x
               | None => get (spread a) k
               end).

(* ------------------------------------------------------------------------- *)
(** ** Schemas used as examples *)
(* ------------------------------------------------------------------------- *)

Definition string_and_number : Obj ArbitraryMutation :=
  [("a", AM.string); ("b", AM.number)].

Definition only_a_string : SchemaNode := ObjectRequired [("a", StringPrim)].
Definition only_a_number : SchemaNode := ObjectRequired [("a", NumberPrim)].
Definition a_string_b_number : SchemaNode :=
  ObjectRequired [("a", StringPrim); ("b", NumberPrim)].

(* ------------------------------------------------------------------------- *)
(** ** Runs, sources and well-keyed schemas *)
(* ------------------------------------------------------------------------- *)

(** The source that yields the raw draw [x] and then goes on as [s]. *)
Definition push (x : nat) (s : Rand) : Rand :=
  fun n => match n with O => x | S n' => s n' end.

(** The keys of a list are pairwise distinct. *)
Fixpoint distinct (l : list str) : bool :=
  match l with
  | [] => true
  | k :: l' => negb (existsb (String.eqb k) l') && distinct l'
  end.

(** The nodes on which validity is decided child by child: every object
    declares each key once, and there is no merge ([Intersection]) and no
    discriminator ([TaggedUnion]). *)
Fixpoint simple (n : SchemaNode) : bool :=
  match n with
  | Literal_ _ | StringPrim | NumberPrim | BooleanPrim
  | UnknownArrayPrim | UnknownRecordPrim => true
  | Nullable c | MapOf c | ArrayOf c => simple c
  | ObjectRequired fields | ObjectOptional fields =>
      distinct (keys fields) && forallb (fun f => simple (snd f)) fields
  | TupleOf members | Union members => forallb simple members
  | Intersection _ _ | TaggedUnion _ _ => false
  end.

(** One run of the corrupted generator of [type(properties)], told from
    the run of its valid generator: a failure of the valid draw is the
    failure of the run; after a valid draw the next raw draw selects a
    declared key, that key has a mutation, and the run goes on as that
    mutation with its value put under the key. *)
Definition type_run (properties : Obj ArbitraryMutation)
           (fuel : nat) (s : Rand) : Prop :=
  match arbitrary (AM.type properties) fuel s with
  | Ok a s1 =>
      exists o k p,
        a = VObj o /\
        fc.pick (keys properties) (s1 0) = Some k /\
        get properties k = Some p /\
        mutation (AM.type properties) fuel s =
        fc.map (mutation p) (fun m => VObj (assign o k m)) fuel (shift s1)
  | Fail e => mutation (AM.type properties) fuel s = Fail e
  end.

(** One run of the corrupted generator of [partial(properties)], told from
    the run of its filtered valid generator. *)
Definition partial_run (properties : Obj ArbitraryMutation)
           (fuel : nat) (s : Rand) : Prop :=
  match fc.filter (arbitrary (AM.partial properties)) nonEmpty fuel s with
  | Ok a s1 =>
      exists o k p,
        a = VObj o /\
        fc.pick (keys properties) (s1 0) = Some k /\
        get properties k = Some p /\
        mutation (AM.partial properties) fuel s =
        fc.map (mutation p) (fun m => VObj (assign o k m)) fuel (shift s1)
  | Fail e => mutation (AM.partial properties) fuel s = Fail e
  end.

(** One run of the corrupted generator of a tuple of arity [n >= 1], told
    from the run of its valid generator: the index is the next raw draw
    modulo the arity, it is within the valid tuple, and the run goes on as
    the mutation of that component with its value put in that slot. *)
Definition tuple_run (components : list ArbitraryMutation)
           (fuel : nat) (s : Rand) : Prop :=
  match arbitrary (AM.tuple components) fuel s with
  | Ok t s1 =>
      exists l c,
        t = VArr l /\
        length l = length components /\
        nth_error components (s1 0 mod length components) = Some c /\
        mutation (AM.tuple components) fuel s =
        fc.map (mutation c)
               (fun m => VArr (unsafeUpdateAt (s1 0 mod length components) m l))
               fuel (shift s1)
  | Fail e => mutation (AM.tuple components) fuel s = Fail e
  end.

(** In a drawn object exactly the field under [k] is invalid for its
    declared node. *)
Definition only_field_invalid (fields : Obj SchemaNode) (o : Obj Value)
           (k : str) : Prop :=
  forall k' c, In (k', c) fields ->
    exists x, get o k' = Some x /\
              valid c x = negb (String.eqb k' k).

(** In a drawn tuple exactly the slot [i] is invalid for its component. *)
Definition only_slot_invalid (components : list SchemaNode) (l : list Value)
           (i : nat) : Prop :=
  forall j c, nth_error components j = Some c ->
    exists x, nth_error l j = Some x /\
              valid c x = negb (Nat.eqb j i).

(* ------------------------------------------------------------------------- *)
(** ** Facts about objects and slots *)
(* ------------------------------------------------------------------------- *)

Lemma get_app_last (T : Type) (l : Obj T) e k :
  get (l ++ [e])%list k =
  match get l k with Some x => Some x | None => get [e] k end.
Proof.
  induction l as [|[k0 v0] l IHl]; simpl; auto.
  destruct (String.eqb k0 k); auto.
Qed.

Section ObjectFacts.
Variable T : Type.
Implicit Types (o : Obj T) (k : str) (v : T).

Lemma get_assign_same o k v : get (assign o k v) k = Some v.
Proof.
  induction o as [|[k' v'] o IH]; simpl.
  - now rewrite String.eqb_refl.
  - destruct (String.eqb k' k) eqn:E; simpl; rewrite E; auto.
Qed.

Lemma get_assign_other o k k' v :
  k' <> k -> get (assign o k v) k' = get o k'.
Proof.
  intros Hne. induction o as [|[k0 v0] o IH]; simpl.
  - destruct (String.eqb k k') eqn:E; auto.
    apply String.eqb_eq in E. congruence.
  - destruct (String.eqb k0 k) eqn:E; simpl.
    + apply String.eqb_eq in E. subst k0.
      destruct (String.eqb k k') eqn:E'; auto.
      apply String.eqb_eq in E'. congruence.
    + now rewrite IH.
Qed.

Lemma keys_assign_present o k v :
  In k (keys o) -> keys (assign o k v) = keys o.
Proof.
  induction o as [|[k' v'] o IH]; simpl; intros Hin; [easy|].
  destruct (String.eqb k' k) eqn:E; simpl; auto.
  f_equal. apply IH. destruct Hin as [->|]; auto.
  now rewrite String.eqb_refl in E.
Qed.

Lemma get_In o k v : get o k = Some v -> In (k, v) o.
Proof.
  induction o as [|[k' v'] o IH]; simpl; [discriminate|].
  destruct (String.eqb k' k) eqn:E; intros H.
  - apply String.eqb_eq in E. left. congruence.
  - right. auto.
Qed.

Lemma get_keys o k : In k (keys o) -> exists v, get o k = Some v.
Proof.
  induction o as [|[k' v'] o IH]; simpl; [easy|].
  intros H. destruct (String.eqb k' k) eqn:E; eauto.
  destruct H as [->|H]; auto. now rewrite String.eqb_refl in E.
Qed.

Lemma assign_not_nil o k v : assign o k v <> [].
Proof.
  destruct o as [|[k' v'] o]; simpl; [discriminate|].
  destruct (String.eqb k' k); discriminate.
Qed.

Lemma assign_Forall (P : T -> Prop) o k v :
  Forall (fun kv => P (snd kv)) o -> P v ->
  Forall (fun kv => P (snd kv)) (assign o k v).
Proof.
  intros Ho Hv. induction Ho as [|[k' v'] o Hx Ho IH]; simpl.
  - constructor; auto.
  - destruct (String.eqb k' k); constructor; auto.
Qed.

Lemma assign_all_Forall (P : T -> Prop) (entries o : Obj T) :
  Forall (fun kv => P (snd kv)) o ->
  Forall (fun kv => P (snd kv)) entries ->
  Forall (fun kv => P (snd kv)) (assign_all o entries).
Proof.
  intros Ho He. revert o Ho. unfold assign_all.
  induction He as [|[k v] entries Hv He IH]; simpl; intros o Ho; auto.
  apply IH. apply assign_Forall; auto.
Qed.

Lemma assign_all_not_nil (entries o : Obj T) :
  entries <> [] -> assign_all o entries <> [].
Proof.
  unfold assign_all. intros Hne.
  assert (Hgrow : forall (es acc : Obj T), acc <> [] ->
            fold_left (fun acc kv => assign acc (fst kv) (snd kv)) es acc <> []).
  { induction es as [|e es IH]; simpl; intros acc Hacc; auto.
    apply IH. apply assign_not_nil. }
  destruct entries as [|e es]; [congruence|]. simpl.
  apply Hgrow. apply assign_not_nil.
Qed.

(** The merge keeps the right value on a common key and the left one
    elsewhere. *)
Lemma get_assign_all (b a : Obj T) k :
  get (assign_all a b) k =
  match get (rev b) k with
  | Some x => Some x
  | None => get a k
  end.
Proof.
  unfold assign_all. revert a.
  induction b as [|[k' v'] b IH]; simpl; intros a; auto.
  rewrite IH. clear IH.
  rewrite get_app_last. destruct (get (rev b) k); auto. simpl.
  destruct (String.eqb k' k) eqn:E.
  - apply String.eqb_eq in E. subst. apply get_assign_same.
  - apply get_assign_other. intros ->. now rewrite String.eqb_refl in E.
Qed.

End ObjectFacts.

(** On a well-formed object the order of the fields does not matter to a
    lookup. *)
Lemma get_rev_wf (T : Type) (o : Obj T) k :
  wf_obj o -> get (rev o) k = get o k.
Proof.
  unfold wf_obj. induction o as [|[k' v'] o IH]; simpl; intros Hnd; auto.
  inversion Hnd as [|? ? Hnotin Hnd']; subst.
  rewrite get_app_last, IH by assumption. simpl.
  destruct (String.eqb k' k) eqn:E.
  - apply String.eqb_eq in E. subst k'.
    destruct (get o k) eqn:G; auto.
    apply get_In in G. exfalso. apply Hnotin.
    unfold keys. change k with (fst (k, t)). now apply in_map.
  - destruct (get o k); auto.
Qed.

Lemma unsafeUpdateAt_length i a l :
  i < length l -> length (unsafeUpdateAt i a l) = length l.
Proof.
  revert l. induction i as [|i IH]; intros [|x l]; simpl; intros H;
    try lia; auto.
  f_equal. apply IH. lia.
Qed.

Lemma unsafeUpdateAt_same i a l :
  nth_error (unsafeUpdateAt i a l) i = Some a.
Proof.
  revert l. induction i as [|i IH]; intros [|x l]; simpl; auto.
Qed.

Lemma unsafeUpdateAt_other i j a l :
  i < length l -> j <> i ->
  nth_error (unsafeUpdateAt i a l) j = nth_error l j.
Proof.
  revert j l. induction i as [|i IH]; intros [|j] [|x l]; simpl; intros Hi Hj;
    try lia; auto.
  apply IH; lia.
Qed.

Lemma forallb_false_In (T : Type) (f : T -> bool) (l : list T) x :
  In x l -> f x = false -> forallb f l = false.
Proof.
  intros Hin Hx. destruct (forallb f l) eqn:E; auto.
  rewrite forallb_forall in E. rewrite E in Hx; auto.
Qed.

Lemma forallb2_false_nth (T U : Type) (f : T -> U -> bool) l l' i x y :
  nth_error l i = Some x -> nth_error l' i = Some y -> f x y = false ->
  forallb2 f l l' = false.
Proof.
  revert l l'. induction i as [|i IH]; intros [|a l] [|b l'];
    simpl; try discriminate.
  - intros E E' H. inversion E; inversion E'; subst. now rewrite H.
  - intros E E' H. rewrite (IH _ _ E E' H). apply andb_false_r.
Qed.

(* ------------------------------------------------------------------------- *)
(** ** Facts about the generator abstraction *)
(* ------------------------------------------------------------------------- *)

Section GeneratorFacts.
Variables T U : Type.

Lemma map_Ok (g : Gen T) (f : T -> U) fuel s v s' :
  fc.map g f fuel s = Ok v s' ->
  exists a, g fuel s = Ok a s' /\ v = f a.
Proof.
  unfold fc.map. destruct (g fuel s) as [a s1|e]; intros H; inversion H.
  eauto.
Qed.

Lemma chain_Ok (g : Gen T) (f : T -> Gen U) fuel s v s' :
  fc.chain g f fuel s = Ok v s' ->
  exists a s1, g fuel s = Ok a s1 /\ f a fuel s1 = Ok v s'.
Proof.
  unfold fc.chain. destruct (g fuel s) as [a s1|e]; intros H; [|discriminate].
  eauto.
Qed.

(** A rejected candidate costs one attempt and the loop goes on from the
    rest of the source. *)
Lemma retry_reject n (g : Rand -> Res T) p s a s1 :
  g s = Ok a s1 -> p a = false ->
  fc.retry (S n) g p s = fc.retry n g p s1.
Proof. intros Hg Hp. simpl. now rewrite Hg, Hp. Qed.

Lemma retry_accept n (g : Rand -> Res T) p s a s1 :
  g s = Ok a s1 -> p a = true ->
  fc.retry (S n) g p s = Ok a s1.
Proof. intros Hg Hp. simpl. now rewrite Hg, Hp. Qed.

Lemma retry_Ok n (g : Rand -> Res T) p s v s' :
  fc.retry n g p s = Ok v s' ->
  p v = true /\ exists s0, g s0 = Ok v s'.
Proof.
  revert s. induction n as [|n IH]; simpl; intros s H; [discriminate|].
  destruct (g s) as [a s1|e] eqn:G; [|discriminate].
  destruct (p a) eqn:P.
  - inversion H; subst. eauto.
  - eauto.
Qed.

Lemma filter_Ok (g : Gen T) p fuel s v s' :
  fc.filter g p fuel s = Ok v s' ->
  p v = true /\ exists s0, g fuel s0 = Ok v s'.
Proof. apply retry_Ok. Qed.

Lemma pick_In (l : list T) x a : fc.pick l x = Some a -> In a l.
Proof. unfold fc.pick. apply nth_error_In. Qed.

Lemma oneof_Ok (gs : list (Gen T)) fuel s v s' :
  fc.oneof gs fuel s = Ok v s' ->
  exists g, fc.pick gs (s 0) = Some g /\ g fuel (shift s) = Ok v s'.
Proof.
  unfold fc.oneof. destruct (fc.pick gs (s 0)) as [g|]; [|discriminate].
  eauto.
Qed.

(** A choice among constants draws the selected member and one raw draw. *)
Lemma oneof_constant_Ok (l : list T) fuel s v s' :
  fc.oneof (List.map (fun a => fc.constant a) l) fuel s = Ok v s' ->
  fc.pick l (s 0) = Some v /\ s' = shift s.
Proof.
  intros H. apply oneof_Ok in H. destruct H as (g & Hp & Hg).
  unfold fc.pick in *. rewrite length_map in Hp.
  rewrite nth_error_map in Hp.
  destruct (nth_error l (s 0 mod length l)) as [a|]; [|discriminate].
  inversion Hp; subst. unfold fc.constant in Hg. inversion Hg. auto.
Qed.

End GeneratorFacts.

Lemma replicate_Ok (T : Type) (P : T -> Prop) (g : Gen T) fuel :
  (forall s v s', g fuel s = Ok v s' -> P v) ->
  forall n s l s', fc.replicate n g fuel s = Ok l s' ->
                   length l = n /\ Forall P l.
Proof.
  intros Hg. induction n as [|n IH]; simpl; intros s l s' H.
  - inversion H. auto.
  - apply chain_Ok in H. destruct H as (a & s1 & Ha & H).
    unfold fc.map in H.
    destruct (fc.replicate n g fuel s1) as [l' s2|e] eqn:R; [|discriminate].
    inversion H; subst. apply IH in R. destruct R. simpl. split; eauto.
Qed.

Lemma array_Ok (T : Type) (P : T -> Prop) (g : Gen T) fuel :
  (forall s v s', g fuel s = Ok v s' -> P v) ->
  forall s l s', fc.array g fuel s = Ok l s' -> Forall P l.
Proof.
  intros Hg s l s' H. apply chain_Ok in H. destruct H as (n & s1 & _ & H).
  eapply replicate_Ok in H; eauto. tauto.
Qed.

Lemma tuple_Ok (T : Type) (R : Gen T -> T -> Prop) fuel :
  (forall g s v s', g fuel s = Ok v s' -> R g v) ->
  forall gs s l s', fc.tuple gs fuel s = Ok l s' -> Forall2 R gs l.
Proof.
  intros HR. induction gs as [|g gs IH]; simpl; intros s l s' H.
  - inversion H. constructor.
  - apply chain_Ok in H. destruct H as (a & s1 & Ha & H).
    unfold fc.map in H.
    destruct (fc.tuple gs fuel s1) as [l' s2|e] eqn:E; [|discriminate].
    inversion H; subst. constructor; eauto.
Qed.

Lemma record_Ok (T : Type) (R : Gen T -> T -> Prop) fuel :
  (forall g s v s', g fuel s = Ok v s' -> R g v) ->
  forall fields s o s', fc.record fields fuel s = Ok o s' ->
    Forall2 (fun f x => fst f = fst x /\ R (snd f) (snd x)) fields o.
Proof.
  intros HR. induction fields as [|[k g] fields IH]; simpl; intros s o s' H.
  - inversion H. constructor.
  - apply chain_Ok in H. destruct H as (a & s1 & Ha & H).
    unfold fc.map in H.
    destruct (fc.record fields fuel s1) as [o' s2|e] eqn:E; [|discriminate].
    inversion H; subst. constructor; simpl; eauto.
Qed.

Lemma dictionary_Ok (T : Type) (P : T -> Prop) (k : Gen str) (g : Gen T) fuel :
  (forall s v s', g fuel s = Ok v s' -> P v) ->
  forall s o s', fc.dictionary k g fuel s = Ok o s' ->
                 Forall (fun kv => P (snd kv)) o.
Proof.
  intros Hg s o s' H. unfold fc.dictionary in H.
  apply map_Ok in H. destruct H as (entries & H & ->).
  apply assign_all_Forall; [constructor|].
  eapply array_Ok; [|exact H]. intros s0 v s1 H0. simpl in H0.
  apply chain_Ok in H0. destruct H0 as (key & s2 & _ & H0).
  apply map_Ok in H0. destruct H0 as (x & Hx & ->). simpl. eauto.
Qed.

(** A drawn object has the declared keys, and under each key a value of the
    generator declared first for it. *)
Lemma record_keys (T : Type) (R : Gen T -> T -> Prop)
      (fields : Obj (Gen T)) (o : Obj T) :
  Forall2 (fun f x => fst f = fst x /\ R (snd f) (snd x)) fields o ->
  keys o = keys fields /\
  forall k g, get fields k = Some g -> exists x, get o k = Some x /\ R g x.
Proof.
  induction 1 as [|[k g] [k' x] fields o [Hk Hx] _ [IHk IHg]]; simpl in *.
  - split; [reflexivity|discriminate].
  - subst k'. split; [now f_equal|].
    intros k0 g0. destruct (String.eqb k k0); eauto.
    intros E. inversion E; subst. eauto.
Qed.

Lemma oneof_cases (T : Type) (gs : list (Gen T)) fuel s v s' :
  fc.oneof gs fuel s = Ok v s' ->
  exists g, In g gs /\ g fuel (shift s) = Ok v s'.
Proof.
  intros H. apply oneof_Ok in H. destruct H as (g & Hp & Hg).
  apply pick_In in Hp. eauto.
Qed.

Ltac run_generator := vm_compute; reflexivity.

(** Splits a draw of a choice among listed generators into its cases. *)
Ltac oneof_split H :=
  let g := fresh "g" in
  let Hin := fresh "Hin" in
  apply oneof_cases in H; destruct H as (g & Hin & H);
  simpl in Hin;
  repeat (destruct Hin as [<-|Hin]; [|]); try contradiction.

(* ------------------------------------------------------------------------- *)
(** ** Uniform choice *)
(* ------------------------------------------------------------------------- *)

Section Uniform.
Variable T : Type.
Variable same : T -> T -> bool.
Hypothesis same_eq : forall x y, same x y = true <-> x = y.

Lemma filter_seq_block (f f' : nat -> bool) start len :
  forall off,
    (forall j, off <= j < off + len -> f (start + j) = f' j) ->
    length (List.filter f (seq (start + off) len)) =
    length (List.filter f' (seq off len)).
Proof.
  induction len as [|len IH]; intros off Hf; simpl; auto.
  rewrite (Hf off) by lia.
  replace (S (start + off)) with (start + S off) by lia.
  destruct (f' off); simpl; rewrite IH; auto; intros j Hj; apply Hf; lia.
Qed.

(** The positions of [l] that hold [a] are as many as its occurrences. *)
Lemma count_positions (l : list T) a :
  length (List.filter (fun j => match nth_error l j with
                                | Some b => same a b
                                | None => false
                                end) (seq 0 (length l))) =
  length (List.filter (same a) l).
Proof.
  induction l as [|x l IH]; [reflexivity|].
  change (seq 0 (length (x :: l))) with (0 :: seq 1 (length l)).
  pose proof (filter_seq_block
                (fun j => match nth_error (x :: l) j with
                          | Some b => same a b
                          | None => false
                          end)
                (fun j => match nth_error l j with
                          | Some b => same a b
                          | None => false
                          end) 1 (length l) 0) as Hb.
  change (1 + 0) with 1 in Hb.
  cbn [List.filter nth_error].
  destruct (same a x); cbn [length]; rewrite Hb, IH; auto.
Qed.

Lemma occurs_once (l : list T) a :
  NoDup l -> In a l -> length (List.filter (same a) l) = 1.
Proof.
  induction 1 as [|x l Hnotin Hnd IH]; simpl; intros Hin; [easy|].
  destruct (same a x) eqn:E.
  - apply same_eq in E. subst x. simpl. f_equal.
    assert (Hnone : forall l', ~ In a l' -> List.filter (same a) l' = []).
    { induction l' as [|y l' IH']; simpl; intros Hy; auto.
      destruct (same a y) eqn:Ey.
      - apply same_eq in Ey. subst. exfalso. auto.
      - apply IH'. auto. }
    now rewrite Hnone.
  - destruct Hin as [->|Hin]; auto.
    assert (same a a = true) by now apply same_eq. congruence.
Qed.

(** Over every whole number of rounds of raw draws, each member of a
    duplicate-free list is selected equally often: once a round. *)
Lemma hits_uniform (l : list T) a q :
  NoDup l -> In a l -> hits same l a (q * length l) = q.
Proof.
  intros Hnd Hin. unfold hits.
  assert (Hpos : 0 < length l) by (destruct l; simpl in *; [easy|lia]).
  induction q as [|q IH]; simpl; auto.
  replace (length l + q * length l) with (q * length l + length l) by lia.
  rewrite seq_app, filter_app, length_app, IH. simpl.
  replace (q * length l) with (q * length l + 0) at 1 by lia.
  rewrite (filter_seq_block _
             (fun j => match nth_error l j with
                       | Some b => same a b
                       | None => false
                       end)).
  - rewrite count_positions, occurs_once; auto. lia.
  - intros j Hj. unfold fc.pick.
    rewrite Nat.add_comm, Nat.Div0.mod_add, Nat.mod_small by lia.
    reflexivity.
Qed.

End Uniform.

Lemma hits_keys (l : list str) k q :
  NoDup l -> In k l -> hits String.eqb l k (q * length l) = q.
Proof. apply hits_uniform. intros x y. apply String.eqb_eq. Qed.

Lemma hits_index n i q :
  i < n -> hits Nat.eqb (seq 0 n) i (q * n) = q.
Proof.
  intros Hi.
  pose proof (hits_uniform nat Nat.eqb Nat.eqb_eq (seq 0 n) i q) as H.
  rewrite length_seq in H. apply H.
  - apply seq_NoDup.
  - apply in_seq. lia.
Qed.

(* ------------------------------------------------------------------------- *)
(** ** Primitives and literals *)
(* ------------------------------------------------------------------------- *)

Lemma A_string_kind fuel s v s' :
  A.string fuel s = Ok v s' -> kind v = KString.
Proof. intros H. apply map_Ok in H. destruct H as (x & _ & ->). reflexivity. Qed.

Lemma A_number_kind fuel s v s' :
  A.number fuel s = Ok v s' -> kind v = KNumber.
Proof. intros H. apply map_Ok in H. destruct H as (x & _ & ->). reflexivity. Qed.

Lemma A_boolean_kind fuel s v s' :
  A.boolean fuel s = Ok v s' -> kind v = KBoolean.
Proof. intros H. apply map_Ok in H. destruct H as (x & _ & ->). reflexivity. Qed.

Create HintDb kinds.
#[local] Hint Resolve A_string_kind A_number_kind A_boolean_kind : kinds.

Lemma string_mutation_kind fuel s v s' :
  mutation AM.string fuel s = Ok v s' ->
  kind v = KNumber \/ kind v = KBoolean.
Proof. intros H. simpl in H. oneof_split H; eauto with kinds. Qed.

Lemma number_mutation_kind fuel s v s' :
  mutation AM.number fuel s = Ok v s' ->
  kind v = KString \/ kind v = KBoolean.
Proof. intros H. simpl in H. oneof_split H; eauto with kinds. Qed.

Lemma boolean_mutation_kind fuel s v s' :
  mutation AM.boolean fuel s = Ok v s' ->
  kind v = KString \/ kind v = KNumber.
Proof.
  intros H. simpl in H. oneof_split H; eauto with kinds.
  left. oneof_split H; inversion H; reflexivity.
Qed.

Lemma literalsArbitrary_literal fuel s v s' :
  AM.literalsArbitrary fuel s = Ok v s' -> exists l, v = of_literal l.
Proof.
  intros H. unfold AM.literalsArbitrary, A.union in H. oneof_split H.
  - apply map_Ok in H. destruct H as (x & _ & ->). now exists (LStr x).
  - apply map_Ok in H. destruct H as (x & _ & ->). now exists (LNum x).
  - apply map_Ok in H. destruct H as (x & _ & ->). now exists (LBool x).
  - inversion H. now exists LNull.
Qed.

Lemma strict_eq_spec a u : G.strict_eq a u = true <-> u = of_literal a.
Proof.
  destruct a, u; simpl; split; intros H; try discriminate; try reflexivity;
    try (inversion H; subst).
  - apply String.eqb_eq in H. now subst.
  - apply String.eqb_refl.
  - apply Z.eqb_eq in H. now subst.
  - apply Z.eqb_refl.
  - apply Bool.eqb_prop in H. now subst.
  - apply Bool.eqb_reflx.
Qed.

(** The literal guard holds exactly of the listed values. *)
Lemma G_literal_spec values u :
  G.literal values u = true <-> In u (List.map of_literal values).
Proof.
  unfold G.literal. rewrite existsb_exists, in_map_iff. split.
  - intros (a & Ha & E). apply strict_eq_spec in E. eauto.
  - intros (a & E & Ha). exists a. split; auto. now apply strict_eq_spec.
Qed.

Lemma literal_mutation_Ok values fuel s v s' :
  mutation (AM.literal values) fuel s = Ok v s' ->
  (exists l, v = of_literal l) /\ G.literal values v = false.
Proof.
  intros H. simpl in H. apply filter_Ok in H. destruct H as (Hp & s0 & H).
  split; [eapply literalsArbitrary_literal; eauto|].
  unfold not_ in Hp. now apply negb_true_iff in Hp.
Qed.

Lemma kind_not_valid n v :
  match n with
  | StringPrim => kind v <> KString
  | NumberPrim => kind v <> KNumber
  | BooleanPrim => kind v <> KBoolean
  | UnknownArrayPrim => kind v <> KArray
  | UnknownRecordPrim => kind v <> KObject
  | _ => False
  end -> valid n v = false.
Proof.
  destruct n; simpl; intros H; try contradiction;
    destruct v; simpl in *; congruence.
Qed.

(* ------------------------------------------------------------------------- *)
(** ** Single-fault injection: objects and tuples *)
(* ------------------------------------------------------------------------- *)

Lemma keys_mutations_of properties :
  keys (AM.mutations_of properties) = keys properties.
Proof.
  unfold keys, AM.mutations_of. rewrite List.map_map. reflexivity.
Qed.

Lemma get_mutations_of properties k :
  get (AM.mutations_of properties) k =
  option_map mutation (get properties k).
Proof.
  induction properties as [|[k' p] properties IH]; simpl; auto.
  destruct (String.eqb k' k); auto.
Qed.

Lemma get_arbitraries_of properties k :
  get (AM.arbitraries_of properties) k =
  option_map arbitrary (get properties k).
Proof.
  induction properties as [|[k' p] properties IH]; simpl; auto.
  destruct (String.eqb k' k); auto.
Qed.

Lemma keys_arbitraries_of properties :
  keys (AM.arbitraries_of properties) = keys properties.
Proof.
  unfold keys, AM.arbitraries_of. rewrite List.map_map. reflexivity.
Qed.

Lemma pick_key_present (T : Type) (o : Obj T) x k :
  fc.pick (keys o) x = Some k -> exists p, get o k = Some p.
Proof. intros H. apply pick_In in H. now apply get_keys. Qed.

(** The chosen key is injected with a draw of its own mutation. *)
Lemma mutate_field_Ok properties a key fuel s v s' :
  AM.mutate_field (AM.mutations_of properties) a key fuel s = Ok v s' ->
  exists p m, get properties key = Some p /\
              mutation p fuel s = Ok m s' /\
              v = VObj (assign (spread a) key m).
Proof.
  unfold AM.mutate_field. rewrite get_mutations_of.
  destruct (get properties key) as [p|]; simpl; [|discriminate].
  intros H. apply map_Ok in H. destruct H as (m & Hm & ->). eauto.
Qed.

(** A valid draw of a required object: the declared keys, each with a value
    of its field's valid generator. *)
Lemma A_type_Ok properties fuel s v s' :
  A.type (AM.arbitraries_of properties) fuel s = Ok v s' ->
  exists a, v = VObj a /\ keys a = keys properties /\
            forall k p, get properties k = Some p ->
                        exists x, get a k = Some x /\ draws (arbitrary p) x.
Proof.
  intros H. apply map_Ok in H. destruct H as (a & H & ->).
  exists a. split; auto.
  apply (record_Ok Value (fun g x => draws g x)) in H;
    [|intros g s0 x s1 Hx; now exists fuel, s0, s1].
  apply record_keys in H. destruct H as [Hk Hg].
  rewrite keys_arbitraries_of in Hk. split; auto.
  intros k p Hp. apply (Hg k (arbitrary p)).
  rewrite get_arbitraries_of, Hp. reflexivity.
Qed.

Lemma type_mutation_Ok properties fuel s v s' :
  properties <> [] ->
  mutation (AM.type properties) fuel s = Ok v s' ->
  exists a s1 k p m,
    A.type (AM.arbitraries_of properties) fuel s = Ok (VObj a) s1 /\
    fc.pick (keys properties) (s1 0) = Some k /\
    get properties k = Some p /\
    mutation p fuel (shift s1) = Ok m s' /\
    v = VObj (assign a k m).
Proof.
  intros Hne H. unfold AM.type in H.
  destruct (Nat.eqb (length (keys properties)) 0) eqn:E.
  { apply Nat.eqb_eq in E. destruct properties; [congruence|discriminate]. }
  cbv zeta in H. cbn [mutation] in H.
  apply chain_Ok in H. destruct H as (a0 & s1 & Ha & H).
  apply chain_Ok in H. destruct H as (k & s2 & Hk & H).
  apply oneof_constant_Ok in Hk. destruct Hk as [Hk ->].
  apply mutate_field_Ok in H. destruct H as (p & m & Hp & Hm & ->).
  destruct (A_type_Ok _ _ _ _ _ Ha) as (a & -> & _).
  exists a, s1, k, p, m. auto.
Qed.

Lemma partial_fields_Ok properties fuel s o s' :
  A.partial_fields properties fuel s = Ok o s' ->
  forall k x, In (k, x) o -> exists g, In (k, g) properties /\ draws g x.
Proof.
  revert s o. induction properties as [|[k0 g0] properties IH];
    simpl; intros s o H k x Hin.
  - inversion H; subst. contradiction.
  - apply chain_Ok in H. destruct H as ([|] & s1 & _ & H).
    + apply chain_Ok in H. destruct H as (v0 & s2 & Hv & H).
      apply map_Ok in H. destruct H as (o' & Ho & ->).
      destruct Hin as [E|Hin].
      * inversion E; subst. exists g0. split; auto. now exists fuel, s1, s2.
      * destruct (IH _ _ Ho _ _ Hin) as (g & Hg & Hd). eauto.
    + destruct (IH _ _ H _ _ Hin) as (g & Hg & Hd). eauto.
Qed.

Lemma partial_mutation_Ok properties fuel s v s' :
  properties <> [] ->
  mutation (AM.partial properties) fuel s = Ok v s' ->
  exists a s1 k p m,
    fc.filter (A.partial (AM.arbitraries_of properties)) nonEmpty fuel s
      = Ok (VObj a) s1 /\
    a <> [] /\
    fc.pick (keys properties) (s1 0) = Some k /\
    get properties k = Some p /\
    mutation p fuel (shift s1) = Ok m s' /\
    v = VObj (assign a k m).
Proof.
  intros Hne H. unfold AM.partial in H.
  destruct (Nat.eqb (length (keys properties)) 0) eqn:E.
  { apply Nat.eqb_eq in E. destruct properties; [congruence|discriminate]. }
  cbv zeta in H. cbn [mutation] in H.
  apply chain_Ok in H. destruct H as (a0 & s1 & Ha & H).
  apply chain_Ok in H. destruct H as (k & s2 & Hk & H).
  apply oneof_constant_Ok in Hk. destruct Hk as [Hk ->].
  apply mutate_field_Ok in H. destruct H as (p & m & Hp & Hm & ->).
  destruct (filter_Ok _ _ _ _ _ _ _ Ha) as (Hnon & s0 & Hdraw).
  apply map_Ok in Hdraw. destruct Hdraw as (a & _ & ->).
  exists a, s1, k, p, m. repeat split; auto.
  intros ->. discriminate.
Qed.

Lemma A_tuple_Ok components fuel s v s' :
  A.tuple (List.map arbitrary components) fuel s = Ok v s' ->
  exists t, v = VArr t /\ length t = length components.
Proof.
  intros H. apply map_Ok in H. destruct H as (t & H & ->).
  exists t. split; auto.
  apply (tuple_Ok Value (fun _ _ => True)) in H; auto.
  apply Forall2_length in H. now rewrite length_map in H.
Qed.

Lemma tuple_mutation_Ok components fuel s v s' :
  components <> [] ->
  mutation (AM.tuple components) fuel s = Ok v s' ->
  exists t s1 i c m,
    A.tuple (List.map arbitrary components) fuel s = Ok (VArr t) s1 /\
    length t = length components /\
    fc.pick (seq 0 (length components)) (s1 0) = Some i /\
    i < length components /\
    nth_error components i = Some c /\
    mutation c fuel (shift s1) = Ok m s' /\
    v = VArr (unsafeUpdateAt i m t).
Proof.
  intros Hne H. unfold AM.tuple in H.
  destruct (Nat.eqb (length components) 0) eqn:E.
  { apply Nat.eqb_eq in E. destruct components; [congruence|discriminate]. }
  cbv zeta in H. cbn [mutation] in H.
  apply chain_Ok in H. destruct H as (t0 & s1 & Ht & H).
  apply chain_Ok in H. destruct H as (i & s2 & Hi & H).
  apply oneof_constant_Ok in Hi. destruct Hi as [Hi ->].
  destruct (A_tuple_Ok _ _ _ _ _ Ht) as (t & -> & Hlen).
  assert (Hlt : i < length components).
  { apply pick_In in Hi. apply in_seq in Hi. lia. }
  unfold AM.mutate_slot in H. rewrite nth_error_map in H.
  destruct (nth_error components i) as [c|] eqn:Hc;
    [|apply nth_error_None in Hc; lia].
  simpl in H. apply map_Ok in H. destruct H as (m & Hm & ->).
  exists t, s1, i, c, m. repeat split; auto.
Qed.

Lemma arbitrary_type properties :
  properties <> [] ->
  arbitrary (AM.type properties) = A.type (AM.arbitraries_of properties).
Proof.
  intros Hne. unfold AM.type.
  destruct properties; [congruence|reflexivity].
Qed.

Lemma arbitrary_partial properties :
  properties <> [] ->
  arbitrary (AM.partial properties) = A.partial (AM.arbitraries_of properties).
Proof.
  intros Hne. unfold AM.partial.
  destruct properties; [congruence|reflexivity].
Qed.

Lemma arbitrary_tuple components :
  arbitrary (AM.tuple components) = A.tuple (List.map arbitrary components).
Proof. unfold AM.tuple. destruct components; reflexivity. Qed.

(* ------------------------------------------------------------------------- *)
(** ** Whole-value corruption: arrays, maps and intersections *)
(* ------------------------------------------------------------------------- *)

Lemma array_mutation_Ok (P : Value -> Prop) items fuel :
  (forall s x s', mutation items fuel s = Ok x s' -> P x) ->
  forall s v s', mutation (AM.array items) fuel s = Ok v s' ->
                 exists l, v = VArr l /\ l <> [] /\ Forall P l.
Proof.
  intros HP s v s' H. simpl in H.
  apply filter_Ok in H. destruct H as (Hne & s0 & H).
  apply map_Ok in H. destruct H as (l & H & ->).
  exists l. repeat split.
  - intros ->. discriminate.
  - eapply array_Ok; eauto.
Qed.

Lemma record_mutation_Ok (P : Value -> Prop) codomain fuel :
  (forall s x s', mutation codomain fuel s = Ok x s' -> P x) ->
  forall s v s', mutation (AM.record codomain) fuel s = Ok v s' ->
                 exists o, v = VObj o /\ o <> [] /\
                           Forall (fun kv => P (snd kv)) o.
Proof.
  intros HP s v s' H. simpl in H.
  apply filter_Ok in H. destruct H as (Hne & s0 & H).
  apply map_Ok in H. destruct H as (o & H & ->).
  exists o. repeat split.
  - intros ->. discriminate.
  - eapply dictionary_Ok; eauto.
Qed.

Lemma intersection_mutation_Ok left right fuel s v s' :
  mutation (AM.intersection left right) fuel s = Ok v s' ->
  exists a s1 b,
    mutation left fuel s = Ok a s1 /\
    mutation right fuel s1 = Ok b s' /\
    v = A.intersect a b.
Proof.
  intros H. simpl in H. apply chain_Ok in H. destruct H as (a & s1 & Ha & H).
  apply map_Ok in H. destruct H as (b & Hb & ->). eauto 6.
Qed.

(* ------------------------------------------------------------------------- *)
(** ** The corruption invariant *)
(* ------------------------------------------------------------------------- *)

Lemma get_interp_fields (fields : Obj SchemaNode) k p :
  get (List.map (fun f => (fst f, interp (snd f))) fields) k = Some p ->
  exists c, In (k, c) fields /\ p = interp c.
Proof.
  induction fields as [|[k' c'] fields IH]; simpl; [discriminate|].
  destruct (String.eqb k' k) eqn:E.
  - apply String.eqb_eq in E. subst. intros H. inversion H. eauto.
  - intros H. destruct (IH H) as (c & Hin & ->). eauto.
Qed.

(** An injected field that is invalid for its declared node makes the
    object invalid, whether the fields are required or optional. *)
Lemma injected_field_invalid (fields : Obj SchemaNode) a k c m :
  In (k, c) fields -> valid c m = false ->
  valid (ObjectRequired fields) (VObj (assign a k m)) = false /\
  valid (ObjectOptional fields) (VObj (assign a k m)) = false.
Proof.
  intros Hin Hm. simpl.
  split; apply forallb_false_In with (x := (k, c)); auto; simpl;
    now rewrite get_assign_same.
Qed.

(** On a node built without choice or merge, no corrupted draw is valid. *)
Lemma plain_mutation_invalid n :
  plain n = true ->
  forall fuel s v s', mutation (interp n) fuel s = Ok v s' -> valid n v = false.
Proof.
  induction n using SchemaNode_tree_ind; simpl plain; intros Hplain fuel s v s' Hv;
    try discriminate.
  - (* literal *)
    apply literal_mutation_Ok in Hv. tauto.
  - (* string *)
    apply kind_not_valid. apply string_mutation_kind in Hv.
    destruct Hv as [E|E]; rewrite E; discriminate.
  - (* number *)
    apply kind_not_valid. apply number_mutation_kind in Hv.
    destruct Hv as [E|E]; rewrite E; discriminate.
  - (* boolean *)
    apply kind_not_valid. apply boolean_mutation_kind in Hv.
    destruct Hv as [E|E]; rewrite E; discriminate.
  - (* UnknownArray: a mapping is drawn *)
    simpl in Hv. apply map_Ok in Hv. destruct Hv as (o & _ & ->). reflexivity.
  - (* UnknownRecord: an array is drawn *)
    simpl in Hv. apply map_Ok in Hv. destruct Hv as (l & _ & ->). reflexivity.
  - (* required object *)
    destruct fields as [|f fields].
    { inversion Hv. reflexivity. }
    cbn [interp] in Hv. apply type_mutation_Ok in Hv; [|discriminate].
    destruct Hv as (a & s1 & k & p & m & _ & _ & Hp & Hm & ->).
    apply get_interp_fields in Hp. destruct Hp as (c & Hin & ->).
    apply injected_field_invalid with (c := c); auto.
    rewrite Forall_forall in H. apply (H (k, c) Hin) with fuel (shift s1) s'; auto.
    rewrite forallb_forall in Hplain. apply (Hplain (k, c) Hin).
  - (* optional object *)
    destruct fields as [|f fields].
    { inversion Hv. reflexivity. }
    cbn [interp] in Hv. apply partial_mutation_Ok in Hv; [|discriminate].
    destruct Hv as (a & s1 & k & p & m & _ & _ & _ & Hp & Hm & ->).
    apply get_interp_fields in Hp. destruct Hp as (c & Hin & ->).
    apply injected_field_invalid with (c := c); auto.
    rewrite Forall_forall in H. apply (H (k, c) Hin) with fuel (shift s1) s'; auto.
    rewrite forallb_forall in Hplain. apply (Hplain (k, c) Hin).
  - (* map *)
    cbn [interp] in Hv.
    apply (record_mutation_Ok (fun x => valid n x = false)) in Hv;
      [|intros s0 x s1 Hx; eapply IHn; eauto].
    destruct Hv as (o & -> & Hne & Hall).
    destruct Hall as [|kv o Hkv _]; [congruence|].
    simpl. now rewrite Hkv.
  - (* tuple *)
    destruct cs as [|c0 cs].
    { inversion Hv. reflexivity. }
    cbn [interp] in Hv. apply tuple_mutation_Ok in Hv; [|discriminate].
    destruct Hv as (t & s1 & i & p & m & _ & Hlen & _ & Hlt & Hp & Hm & ->).
    rewrite nth_error_map in Hp.
    destruct (nth_error (c0 :: cs) i) as [c|] eqn:Hc; [|discriminate].
    inversion Hp; subst p.
    change (forallb2 valid (c0 :: cs) (unsafeUpdateAt i m t) = false).
    apply forallb2_false_nth with (i := i) (x := c) (y := m); auto.
    + apply unsafeUpdateAt_same.
    + apply nth_error_In in Hc.
      rewrite Forall_forall in H. apply (H c Hc) with fuel (shift s1) s'; auto.
      rewrite forallb_forall in Hplain. auto.
  - (* array *)
    cbn [interp] in Hv.
    apply (array_mutation_Ok (fun x => valid n x = false)) in Hv;
      [|intros s0 x s1 Hx; eapply IHn; eauto].
    destruct Hv as (l & -> & Hne & Hall).
    destruct Hall as [|x l Hx _]; [congruence|].
    simpl. now rewrite Hx.
Qed.

(* ------------------------------------------------------------------------- *)
(** ** The properties of the specification *)
(* ------------------------------------------------------------------------- *)

(** C1, as the code has it: for every schema node built without nullable,
    union, tagged union and intersection, no value drawn from its
    corrupted generator is structurally valid for the node. *)
Theorem plain_node_mutation_never_valid :
  forall n fuel s v s',
    plain n = true ->
    mutation (interp n) fuel s = Ok v s' ->
    valid n v = false.
Proof.
  intros n fuel s v s' Hplain H. eapply plain_mutation_invalid; eauto.
Qed.

(** The corrupted draw [{a: "h", b: true}] of [{a: string, b: number}] is
    not valid for it. *)
Lemma plain_node_mutation_never_valid_witness :
  valid a_string_b_number (VObj [("a", VStr "h"); ("b", VBool true)]) = false.
Proof.
  apply (plain_node_mutation_never_valid
           a_string_b_number 0 (seed_of [1; 104; 8; 1; 1; 1])
           (VObj [("a", VStr "h"); ("b", VBool true)]) (seed_of [])).
  - reflexivity.
  - run_generator.
Defined.

(** C1, as stated, fails for the nodes that choose among members: the
    placeholder [{}] drawn by [nullable(UnknownRecord).corrupted] is a
    valid record, and the number [3] drawn by
    [union(string, number).corrupted] (a corrupted string) is a valid
    member of the union. *)
Lemma choice_mutation_can_be_valid :
  (exists fuel s v s',
      mutation (interp (Nullable UnknownRecordPrim)) fuel s = Ok v s' /\
      valid (Nullable UnknownRecordPrim) v = true) /\
  (exists fuel s v s',
      mutation (interp (Union [StringPrim; NumberPrim])) fuel s = Ok v s' /\
      valid (Union [StringPrim; NumberPrim]) v = true).
Proof.
  split.
  - exists 0, (seed_of [0]), (VObj []), (seed_of []). split; run_generator.
  - exists 0, (seed_of [0; 0; 6]), (VNum 3), (seed_of []). split; run_generator.
Qed.

(** The other two kinds left out of [plain] can draw a valid value too:
    the merge of the two degenerate corruptions of
    [intersection(type({}), type({}))] is the valid empty object, and a
    corrupted member of a tagged union can be a valid other member. *)
Lemma merge_and_tag_mutation_can_be_valid :
  (exists fuel s v s',
      mutation (interp (Intersection (ObjectRequired []) (ObjectRequired [])))
               fuel s = Ok v s' /\
      valid (Intersection (ObjectRequired []) (ObjectRequired [])) v = true) /\
  (let tagged :=
     TaggedUnion "t" [("A", ObjectRequired [("t", Literal_ [LStr "A"])]);
                      ("B", ObjectRequired [("t", Literal_ [LStr "B"])])] in
   exists fuel s v s',
     mutation (interp tagged) fuel s = Ok v s' /\ valid tagged v = true).
Proof.
  split.
  - exists 0, (seed_of []), (VObj []), (seed_of []). split; run_generator.
  - exists 1, (seed_of [0; 0; 0; 0; 1; 66]), (VObj [("t", VStr "B")]), (seed_of []).
    split; run_generator.
Qed.

(** C2, as the code has it: for a non-empty field map the corrupted
    generator of [partial(properties)] redraws the valid instance until it
    is non-empty, chooses one key uniformly among the declared keys, and
    sets that field alone to a draw of the field's own corrupted generator,
    leaving every other field of the instance as drawn. *)
Theorem partial_mutation_single_fault :
  forall properties fuel s v s',
    properties <> [] ->
    wf_obj properties ->
    mutation (AM.partial properties) fuel s = Ok v s' ->
    partial_single_fault properties fuel s v s'.
Proof.
  intros properties fuel s v s' Hne Hwf H.
  destruct (partial_mutation_Ok _ _ _ _ _ Hne H)
    as (a & s1 & k & p & m & Ha & Hnil & Hk & Hp & Hm & ->).
  exists a, s1, k, p, m.
  rewrite arbitrary_partial by assumption.
  repeat split; auto.
  - intros n s0 e s0' He Hempty. unfold fc.filter.
    eapply retry_reject; eauto.
  - intros k' q Hin. now apply hits_keys.
  - apply get_assign_same.
  - intros k' Hk'. now apply get_assign_other.
Qed.

(** [partial({a: string, b: number})]: the empty instance is rejected, the
    instance [{a: "x"}] is kept, and the absent key [b] is set to the
    corrupted number [true]. *)
Lemma partial_mutation_single_fault_witness :
  partial_single_fault string_and_number 3
                       (seed_of [0; 0; 1; 1; 120; 0; 1; 1; 1])
                       (VObj [("a", VStr "x"); ("b", VBool true)]) (seed_of []).
Proof.
  apply partial_mutation_single_fault.
  - discriminate.
  - repeat constructor; simpl; intuition discriminate.
  - run_generator.
Defined.

(** C2, as stated, fails: the key is not chosen among the keys present in
    the drawn instance.  For [partial({a: string, b: number})] the instance
    [{a: "x"}] is drawn and the key chosen is [b]. *)
Lemma partial_mutation_key_can_be_absent :
  exists fuel s a s1 k v s',
    fc.filter (arbitrary (AM.partial string_and_number)) nonEmpty fuel s
      = Ok (VObj a) s1 /\
    fc.pick (keys string_and_number) (s1 0) = Some k /\
    mutation (AM.partial string_and_number) fuel s = Ok v s' /\
    v = VObj (assign a k (VBool true)) /\
    ~ In k (keys a).
Proof.
  exists 3, (seed_of [0; 0; 1; 1; 120; 0; 1; 1; 1]),
         [("a", VStr "x")], (seed_of [1; 1; 1]), "b",
         (VObj [("a", VStr "x"); ("b", VBool true)]), (seed_of []).
  repeat split; try run_generator.
  simpl. intuition discriminate.
Qed.

(** C3, as the code has it: every corrupted draw of [type(properties)],
    for a non-empty field map, has exactly the declared keys; the field of
    one key, chosen uniformly among the declared keys, holds a draw of that
    field's own corrupted generator (invalid for a field type whose
    corrupted generator never draws a valid value), and every other field
    holds a value of its field's valid generator. *)
Theorem type_mutation_single_fault :
  forall properties fuel s v s',
    properties <> [] ->
    wf_obj properties ->
    mutation (AM.type properties) fuel s = Ok v s' ->
    type_single_fault properties fuel s v s'.
Proof.
  intros properties fuel s v s' Hne Hwf H.
  destruct (type_mutation_Ok _ _ _ _ _ Hne H)
    as (a & s1 & k & p & m & Ha & Hk & Hp & Hm & ->).
  destruct (A_type_Ok _ _ _ _ _ Ha) as (a' & E & Hkeys & Hfields).
  inversion E; subst a'. clear E.
  exists a, s1, k, p, m.
  rewrite arbitrary_type by assumption.
  repeat split; auto.
  - intros k' q Hin. now apply hits_keys.
  - rewrite <- Hkeys. apply keys_assign_present.
    rewrite Hkeys. eapply pick_In; eauto.
  - apply get_assign_same.
  - intros c Hc. eapply Hc; eauto.
  - intros c -> Hplain. eapply plain_mutation_invalid; eauto.
  - intros k' p' Hk' Hp'. destruct (Hfields _ _ Hp') as (x & Hx & Hd).
    exists x. rewrite get_assign_other by assumption. auto.
Qed.

(** [type({a: string, b: number})]: the valid instance [{a: "h", b: 4}]
    with [b] replaced by the corrupted number [true]. *)
Lemma type_mutation_single_fault_witness :
  type_single_fault string_and_number 0 (seed_of [1; 104; 8; 1; 1; 1])
                    (VObj [("a", VStr "h"); ("b", VBool true)]) (seed_of []).
Proof.
  apply type_mutation_single_fault.
  - discriminate.
  - repeat constructor; simpl; intuition discriminate.
  - run_generator.
Defined.

(** C3, as stated, fails: the corrupted field need not be invalid for its
    field type.  For [type({a: nullable(UnknownRecord)})] the corrupted
    draw [{a: {}}] holds a valid value in every declared field. *)
Lemma type_mutation_field_can_be_valid :
  exists fuel s v s',
    mutation (interp (ObjectRequired [("a", Nullable UnknownRecordPrim)]))
             fuel s = Ok v s' /\
    forall k c, In (k, c) [("a", Nullable UnknownRecordPrim)] ->
                exists x, get (spread v) k = Some x /\ valid c x = true.
Proof.
  exists 0, (seed_of [0; 0; 0]), (VObj [("a", VObj [])]), (seed_of []).
  split; [run_generator|].
  intros k c [E|[]]. inversion E; subst. exists (VObj []). auto.
Qed.

(** C4, as the code has it: for zero declared fields the valid generator
    always yields the empty object, and the corrupted generator always
    yields the empty array, which is not an object. *)
Theorem type_empty_generators :
  forall fuel s,
    arbitrary (AM.type []) fuel s = Ok (VObj []) s /\
    mutation (AM.type []) fuel s = Ok (VArr []) s /\
    valid (ObjectRequired []) (VObj []) = true /\
    valid (ObjectRequired []) (VArr []) = false.
Proof. intros fuel s. repeat split. Qed.

(** C4, as stated, fails: a draw of the corrupted generator of [type({})]
    is not the empty object. *)
Lemma type_empty_mutation_is_not_the_empty_object :
  exists fuel s v s',
    mutation (AM.type []) fuel s = Ok v s' /\ v <> VObj [].
Proof.
  exists 0, (seed_of []), (VArr []), (seed_of []).
  split; [reflexivity|discriminate].
Qed.

(** C5, as the code has it: for the zero-arity tuple the valid generator
    always yields the empty tuple, and the corrupted generator always
    yields the empty object, which is not a tuple. *)
Theorem tuple_empty_generators :
  forall fuel s,
    arbitrary (AM.tuple []) fuel s = Ok (VArr []) s /\
    mutation (AM.tuple []) fuel s = Ok (VObj []) s /\
    valid (TupleOf []) (VArr []) = true /\
    valid (TupleOf []) (VObj []) = false.
Proof. intros fuel s. repeat split. Qed.

(** C5, as stated, fails: a draw of the corrupted generator of [tuple()] is
    not the empty tuple. *)
Lemma tuple_empty_mutation_is_not_the_empty_tuple :
  exists fuel s v s',
    mutation (AM.tuple []) fuel s = Ok v s' /\ v <> VArr [].
Proof.
  exists 0, (seed_of []), (VObj []), (seed_of []).
  split; [reflexivity|discriminate].
Qed.

(** C6: every corrupted draw of [arrayOf(item)] is a non-empty sequence
    whose every element is a draw of [item.corrupted], and every corrupted
    draw of [mapOf(codomain)] is a non-empty string-keyed mapping whose
    every value is a draw of [codomain.corrupted]; an empty candidate is
    rejected and the container is drawn again from the rest of the
    source. *)
Theorem container_mutation_nonempty_all_corrupted :
  forall child,
    always (mutation (AM.array child))
           (fun v => exists l, v = VArr l /\ l <> [] /\
                               Forall (draws (mutation child)) l) /\
    always (mutation (AM.record child))
           (fun v => exists o, v = VObj o /\ o <> [] /\
                               Forall (fun kv => draws (mutation child) (snd kv)) o) /\
    (forall n s s1,
        A.array (mutation child) (S n) s = Ok (VArr []) s1 ->
        mutation (AM.array child) (S n) s =
        fc.retry n (A.array (mutation child) (S n)) AM.isNonEmptyArray s1) /\
    (forall n s s1,
        A.record (mutation child) (S n) s = Ok (VObj []) s1 ->
        mutation (AM.record child) (S n) s =
        fc.retry n (A.record (mutation child) (S n)) nonEmpty s1).
Proof.
  intros child. repeat split.
  - intros fuel s v s' H.
    eapply array_mutation_Ok; [|exact H].
    intros s0 x s1 Hx. now exists fuel, s0, s1.
  - intros fuel s v s' H.
    eapply record_mutation_Ok; [|exact H].
    intros s0 x s1 Hx. now exists fuel, s0, s1.
  - intros n s s1 H. simpl. unfold fc.filter.
    eapply retry_reject; eauto.
  - intros n s s1 H. simpl. unfold fc.filter.
    eapply retry_reject; eauto.
Qed.

(** [arrayOf(string)]: the empty candidate is rejected, and the array
    drawn next holds the corrupted strings [-2] and [false]. *)
Lemma container_mutation_nonempty_all_corrupted_witness :
  exists l, VArr [VNum (-2); VBool false] = VArr l /\ l <> [] /\
            Forall (draws (mutation AM.string)) l.
Proof.
  apply (proj1 (container_mutation_nonempty_all_corrupted AM.string)
               3 (seed_of [0; 2; 0; 3; 1; 0])
               (VArr [VNum (-2); VBool false]) (seed_of [])).
  run_generator.
Defined.

(** C7: every value drawn from [literal(values).corrupted] belongs to the
    literal universe (string, number, boolean, null) and equals none of
    [values]. *)
Theorem literal_mutation_excludes_values :
  forall values fuel s v s',
    mutation (AM.literal values) fuel s = Ok v s' ->
    (exists l, v = of_literal l) /\ ~ In v (List.map of_literal values).
Proof.
  intros values fuel s v s' H. apply literal_mutation_Ok in H.
  destruct H as [Hl Hg]. split; auto.
  intros Hin. apply G_literal_spec in Hin. congruence.
Qed.

(** For [literal(1, "a", true)]: the candidates [1] and [true] are rejected
    and redrawn, and the value drawn, [-1], is none of [1], ["a"], [true]. *)
Lemma literal_mutation_excludes_values_witness :
  (exists l, VNum (-1) = of_literal l) /\
  ~ In (VNum (-1)) (List.map of_literal [LNum 1; LStr "a"; LBool true]).
Proof.
  apply (literal_mutation_excludes_values
           [LNum 1; LStr "a"; LBool true] 5 (seed_of [1; 2; 2; 1; 1; 1])
           (VNum (-1)) (seed_of [])).
  run_generator.
Defined.

(** C8: primitive corruption never matches the target kind: a corrupted
    string is a number or a boolean, a corrupted number is a string or a
    boolean, a corrupted boolean is a string or a number; and the corrupted
    boolean can be each of the tokens ["true"], ["false"], ["0"], ["1"]. *)
Theorem primitive_mutation_kinds :
  always (mutation AM.string)
         (fun v => kind v <> KString /\ (kind v = KNumber \/ kind v = KBoolean)) /\
  always (mutation AM.number)
         (fun v => kind v <> KNumber /\ (kind v = KString \/ kind v = KBoolean)) /\
  always (mutation AM.boolean) (fun v => kind v <> KBoolean) /\
  draws (mutation AM.boolean) (VStr "true") /\
  draws (mutation AM.boolean) (VStr "false") /\
  draws (mutation AM.boolean) (VStr "0") /\
  draws (mutation AM.boolean) (VStr "1").
Proof.
  repeat split.
  - apply string_mutation_kind in H. destruct H as [E|E]; rewrite E; discriminate.
  - eapply string_mutation_kind; eauto.
  - apply number_mutation_kind in H. destruct H as [E|E]; rewrite E; discriminate.
  - eapply number_mutation_kind; eauto.
  - intros fuel s v s' H.
    apply boolean_mutation_kind in H. destruct H as [E|E]; rewrite E; discriminate.
  - exists 0, (seed_of [2; 0]), (seed_of []). run_generator.
  - exists 0, (seed_of [2; 1]), (seed_of []). run_generator.
  - exists 0, (seed_of [2; 2]), (seed_of []). run_generator.
  - exists 0, (seed_of [2; 3]), (seed_of []). run_generator.
Qed.

(** A corrupted string that is drawn: the number [2]. *)
Lemma primitive_mutation_kinds_witness :
  kind (VNum 2) <> KString /\ (kind (VNum 2) = KNumber \/ kind (VNum 2) = KBoolean).
Proof.
  apply (proj1 primitive_mutation_kinds 0 (seed_of [0; 4]) (VNum 2) (seed_of [])).
  run_generator.
Defined.

(** C9, as the code has it: every corrupted draw of [intersection(A, B)]
    is the structural merge of a draw of [A.corrupted] and a draw of
    [B.corrupted], the fields of the second winning on common keys. *)
Theorem intersection_mutation_is_merge :
  forall left right fuel s v s',
    mutation (AM.intersection left right) fuel s = Ok v s' ->
    merged_mutations left right fuel s v s'.
Proof.
  intros left right fuel s v s' H.
  apply intersection_mutation_Ok in H. destruct H as (a & s1 & b & Ha & Hb & ->).
  exists a, s1, b. repeat split; auto.
  intros Hwf k. simpl. rewrite get_assign_all. now rewrite get_rev_wf.
Qed.

(** The corrupted [{a: 2}] merged with the corrupted [{a: "x"}]. *)
Lemma intersection_mutation_is_merge_witness :
  merged_mutations (interp only_a_string) (interp only_a_number)
                   0 (seed_of [0; 0; 0; 4; 2; 0; 0; 1; 120])
                   (VObj [("a", VStr "x")]) (seed_of []).
Proof.
  apply intersection_mutation_is_merge. run_generator.
Defined.

(** C9, as stated, fails: the merge need not fail both sides.  The
    corrupted draw [{a: "x"}] of [intersection({a: string}, {a: number})]
    is valid for the left side, and so is the corrupted draw
    [{a: "x", b: ""}] of [intersection({a: string}, {a: string, b: number})]. *)
Lemma intersection_mutation_can_satisfy_one_side :
  (exists fuel s v s',
      mutation (interp (Intersection only_a_string only_a_number)) fuel s
        = Ok v s' /\
      valid only_a_string v = true) /\
  (exists fuel s v s',
      mutation (interp (Intersection only_a_string a_string_b_number)) fuel s
        = Ok v s' /\
      valid only_a_string v = true).
Proof.
  split.
  - exists 0, (seed_of [0; 0; 0; 4; 2; 0; 0; 1; 120]),
           (VObj [("a", VStr "x")]), (seed_of []).
    split; run_generator.
  - exists 0, (seed_of [0; 0; 0; 4; 1; 120; 2; 1; 0; 0]),
           (VObj [("a", VStr "x"); ("b", VStr "")]), (seed_of []).
    split; run_generator.
Qed.

(** C10: every corrupted draw of a tuple of arity [n >= 1] is a sequence
    of length exactly [n] that agrees with the valid base draw it was
    derived from at every position other than the uniformly chosen
    corrupted index. *)
Theorem tuple_mutation_frame :
  forall components fuel s v s',
    components <> [] ->
    mutation (AM.tuple components) fuel s = Ok v s' ->
    tuple_single_fault components fuel s v s'.
Proof.
  intros components fuel s v s' Hne H.
  destruct (tuple_mutation_Ok _ _ _ _ _ Hne H)
    as (t & s1 & i & c & m & Ht & Hlen & Hi & Hlt & Hc & Hm & ->).
  exists t, s1, i, c, m. rewrite arbitrary_tuple.
  repeat split; auto.
  - intros j q Hj. now apply hits_index.
  - rewrite unsafeUpdateAt_length; lia.
  - apply unsafeUpdateAt_same.
  - intros j Hj. apply unsafeUpdateAt_other; lia.
Qed.

(** [tuple(string, number)]: the valid tuple [["h", 4]] with slot [1]
    replaced by the corrupted number [true]. *)
Lemma tuple_mutation_frame_witness :
  tuple_single_fault [AM.string; AM.number] 0 (seed_of [1; 104; 8; 1; 1; 1])
                     (VArr [VStr "h"; VBool true]) (seed_of []).
Proof.
  apply tuple_mutation_frame.
  - discriminate.
  - run_generator.
Defined.

(* ------------------------------------------------------------------------- *)
(** ** Choice among members: union, nullable, sum, literal *)
(* ------------------------------------------------------------------------- *)

Lemma pick_small (T : Type) (l : list T) i a :
  nth_error l i = Some a -> fc.pick l i = Some a.
Proof.
  intros H. unfold fc.pick. rewrite Nat.mod_small; auto.
  apply nth_error_Some. congruence.
Qed.

(** A choice draws exactly what its members draw. *)
Lemma oneof_draws (T : Type) (gs : list (Gen T)) v :
  draws (fc.oneof gs) v <-> exists g, In g gs /\ draws g v.
Proof.
  split.
  - intros (fuel & s & s' & H). apply oneof_cases in H.
    destruct H as (g & Hin & H). exists g. split; auto.
    now exists fuel, (shift s), s'.
  - intros (g & Hin & fuel & s & s' & H).
    apply In_nth_error in Hin. destruct Hin as (i & Hi).
    exists fuel, (push i s), s'. unfold fc.oneof.
    change (push i s 0) with i. rewrite (pick_small _ _ _ _ Hi). exact H.
Qed.

Lemma constant_draws (T : Type) (a v : T) : draws (fc.constant a) v <-> v = a.
Proof.
  split.
  - intros (fuel & s & s' & H). inversion H. reflexivity.
  - intros ->. now exists 0, (seed_of []), (seed_of []).
Qed.

(** X2: the corrupted generator of [union(members)] draws exactly the
    values the corrupted generators of its members draw, and its valid
    generator exactly the values their valid generators draw. *)
Theorem union_draws_what_members_draw :
  forall members v,
    (draws (mutation (AM.union members)) v <->
     exists m, In m members /\ draws (mutation m) v) /\
    (draws (arbitrary (AM.union members)) v <->
     exists m, In m members /\ draws (arbitrary m) v).
Proof.
  intros members v. simpl. unfold A.union. rewrite !oneof_draws. split; split.
  - intros (g & Hin & Hg). apply in_map_iff in Hin.
    destruct Hin as (m & <- & Hm). eauto.
  - intros (m & Hm & Hg). exists (mutation m). split; auto. now apply in_map.
  - intros (g & Hin & Hg). apply in_map_iff in Hin.
    destruct Hin as (m & <- & Hm). eauto.
  - intros (m & Hm & Hg). exists (arbitrary m). split; auto. now apply in_map.
Qed.

(** X3: the corrupted generator of [nullable(or)] draws the empty object
    and the values [or]'s corrupted generator draws, nothing else; its
    valid generator draws [null] and the values [or]'s valid generator
    draws, nothing else. *)
Theorem nullable_draws :
  forall or v,
    (draws (mutation (AM.nullable or)) v <->
     v = VObj [] \/ draws (mutation or) v) /\
    (draws (arbitrary (AM.nullable or)) v <->
     v = VNull \/ draws (arbitrary or) v).
Proof.
  intros or v. simpl. unfold A.union. rewrite !oneof_draws. split; split.
  - intros (g & [<-|[<-|[]]] & Hg); [left; now apply constant_draws|now right].
  - intros [->|H].
    + exists (fc.constant (VObj [])). split; [now left|now apply constant_draws].
    + exists (mutation or). split; [right; now left|assumption].
  - intros (g & [<-|[<-|[]]] & Hg); [left; now apply constant_draws|now right].
  - intros [->|H].
    + exists (fc.constant VNull). split; [now left|now apply constant_draws].
    + exists (arbitrary or). split; [right; now left|assumption].
Qed.

(** X4: whatever the discriminator, the corrupted generator of
    [sum(tag)(members)] draws exactly the values the corrupted generators
    of its members draw, and its valid generator exactly the values their
    valid generators draw. *)
Theorem sum_draws_what_members_draw :
  forall tag members v,
    (draws (mutation (AM.sum tag members)) v <->
     exists k m, In (k, m) members /\ draws (mutation m) v) /\
    (draws (arbitrary (AM.sum tag members)) v <->
     exists k m, In (k, m) members /\ draws (arbitrary m) v).
Proof.
  intros tag members v. simpl. unfold A.sum.
  unfold AM.mutations_of, AM.arbitraries_of.
  rewrite !oneof_draws, !List.map_map. simpl. split; split.
  - intros (g & Hin & Hg). apply in_map_iff in Hin.
    destruct Hin as ([k m] & <- & Hm). eauto.
  - intros (k & m & Hm & Hg). exists (mutation m). split; auto.
    apply in_map_iff. now exists (k, m).
  - intros (g & Hin & Hg). apply in_map_iff in Hin.
    destruct Hin as ([k m] & <- & Hm). eauto.
  - intros (k & m & Hm & Hg). exists (arbitrary m). split; auto.
    apply in_map_iff. now exists (k, m).
Qed.

Lemma A_literal_draws values v :
  draws (A.literal values) v <-> In v (List.map of_literal values).
Proof.
  unfold A.literal. rewrite oneof_draws. split.
  - intros (g & Hin & Hg). apply in_map_iff in Hin.
    destruct Hin as (a & <- & Ha). apply constant_draws in Hg. subst.
    now apply in_map.
  - intros Hin. apply in_map_iff in Hin. destruct Hin as (a & <- & Ha).
    exists (fc.constant (of_literal a)). split.
    + apply in_map_iff. now exists a.
    + now apply constant_draws.
Qed.

(** X5: the valid generator of [literal(values)] draws exactly the listed
    values, and no value is drawn by both its valid and its corrupted
    generator. *)
Theorem literal_generators_are_disjoint :
  forall values v,
    (draws (arbitrary (AM.literal values)) v <->
     In v (List.map of_literal values)) /\
    ~ (draws (arbitrary (AM.literal values)) v /\
       draws (mutation (AM.literal values)) v).
Proof.
  intros values v. split; [apply A_literal_draws|].
  intros [Hvalid (fuel & s & s' & Hmut)].
  apply A_literal_draws in Hvalid. apply G_literal_spec in Hvalid.
  apply literal_mutation_Ok in Hmut. destruct Hmut as [_ Hmut]. congruence.
Qed.

(** X6: [UnknownArray] and [UnknownRecord] are corrupted by each other's
    valid shape: a corrupted unknown array is always an object and a valid
    one an array; a corrupted unknown record is always an array and a valid
    one an object. *)
Theorem unknown_containers_swap_kinds :
  always (mutation AM.UnknownArray) (fun v => kind v = KObject) /\
  always (arbitrary AM.UnknownArray) (fun v => kind v = KArray) /\
  always (mutation AM.UnknownRecord) (fun v => kind v = KArray) /\
  always (arbitrary AM.UnknownRecord) (fun v => kind v = KObject).
Proof.
  repeat split; intros fuel s v s' H; simpl in H;
    apply map_Ok in H; destruct H as (x & _ & ->); reflexivity.
Qed.

(* ------------------------------------------------------------------------- *)
(** ** Runs of the single-fault generators *)
(* ------------------------------------------------------------------------- *)

Lemma pick_nonempty (T : Type) (l : list T) x :
  l <> [] -> exists a, fc.pick l x = Some a.
Proof.
  intros Hne. unfold fc.pick.
  destruct (nth_error l (x mod length l)) as [a|] eqn:E; eauto.
  apply nth_error_None in E.
  assert (x mod length l < length l).
  { apply Nat.mod_upper_bound. destruct l; simpl; congruence. }
  lia.
Qed.

Lemma oneof_constant_run (T : Type) (l : list T) fuel s v :
  fc.pick l (s 0) = Some v ->
  fc.oneof (List.map (fun a => fc.constant a) l) fuel s = Ok v (shift s).
Proof.
  intros H. unfold fc.oneof, fc.pick in *.
  rewrite length_map, nth_error_map, H. reflexivity.
Qed.

Lemma pick_index n x :
  n <> 0 -> fc.pick (seq 0 n) x = Some (x mod n).
Proof.
  intros Hn. unfold fc.pick. rewrite length_seq.
  assert (Hlt : x mod n < n) by now apply Nat.mod_upper_bound.
  destruct (nth_error (seq 0 n) (x mod n)) as [i|] eqn:E.
  - f_equal. apply nth_error_nth with (d := 0) in E.
    rewrite seq_nth in E by assumption. simpl in E. auto.
  - apply nth_error_None in E. rewrite length_seq in E. lia.
Qed.

Lemma mutation_type properties :
  properties <> [] ->
  mutation (AM.type properties) =
  fc.chain (A.type (AM.arbitraries_of properties)) (fun a =>
    fc.chain (fc.oneof (List.map (fun key => fc.constant key) (keys properties)))
             (fun key => AM.mutate_field (AM.mutations_of properties) a key)).
Proof. intros Hne. destruct properties; [congruence|reflexivity]. Qed.

Lemma mutation_partial properties :
  properties <> [] ->
  mutation (AM.partial properties) =
  fc.chain (fc.filter (A.partial (AM.arbitraries_of properties)) nonEmpty)
    (fun a =>
       fc.chain (fc.oneof (List.map (fun key => fc.constant key) (keys properties)))
                (fun key => AM.mutate_field (AM.mutations_of properties) a key)).
Proof. intros Hne. destruct properties; [congruence|reflexivity]. Qed.

Lemma mutation_tuple components :
  components <> [] ->
  mutation (AM.tuple components) =
  fc.chain (A.tuple (List.map arbitrary components)) (fun t =>
    fc.chain (fc.oneof (List.map (fun i => fc.constant i)
                                 (seq 0 (length components))))
             (fun i => AM.mutate_slot (List.map mutation components) t i)).
Proof. intros Hne. destruct components; [congruence|reflexivity]. Qed.

(** After the valid instance, the run is the mutation of the chosen key. *)
Lemma mutate_chosen_field properties a fuel s1 :
  properties <> [] ->
  exists k p,
    fc.pick (keys properties) (s1 0) = Some k /\
    get properties k = Some p /\
    fc.chain (fc.oneof (List.map (fun key => fc.constant key) (keys properties)))
             (fun key => AM.mutate_field (AM.mutations_of properties) a key)
             fuel s1 =
    fc.map (mutation p) (fun m => VObj (assign (spread a) k m)) fuel (shift s1).
Proof.
  intros Hne.
  destruct (pick_nonempty _ (keys properties) (s1 0)) as (k & Hk).
  { destruct properties; [congruence|discriminate]. }
  destruct (pick_key_present _ _ _ _ Hk) as (p & Hp).
  exists k, p. repeat split; auto.
  unfold fc.chain. rewrite (oneof_constant_run _ _ _ _ _ Hk).
  unfold AM.mutate_field. rewrite get_mutations_of, Hp. reflexivity.
Qed.

(** X7: the corrupted generator of [type(properties)], for a non-empty
    field map, fails exactly as its valid generator when that fails, and
    otherwise always finds the mutation of the key it chooses: the run is
    that mutation, its value put under the chosen key of the valid
    instance. *)
Theorem type_mutation_run :
  forall properties fuel s,
    properties <> [] -> type_run properties fuel s.
Proof.
  intros properties fuel s Hne. unfold type_run.
  rewrite arbitrary_type, mutation_type by assumption.
  destruct (A.type (AM.arbitraries_of properties) fuel s) as [a s1|e] eqn:Ha;
    [|unfold fc.chain; now rewrite Ha].
  destruct (A_type_Ok _ _ _ _ _ Ha) as (o & E & _). subst a.
  destruct (mutate_chosen_field properties (VObj o) fuel s1 Hne)
    as (k & p & Hk & Hp & Hrun).
  exists o, k, p. repeat split; auto.
  unfold fc.chain at 1. rewrite Ha. exact Hrun.
Qed.

(** On [{a: string, b: number}]: after [{a: "h", b: 4}] the key [b] is
    chosen and its mutation runs. *)
Lemma type_mutation_run_witness :
  type_run string_and_number 0 (seed_of [1; 104; 8; 1; 1; 1]).
Proof. apply type_mutation_run. discriminate. Defined.

(** X8: the corrupted generator of [partial(properties)], for a non-empty
    field map, fails exactly as the filtered valid generator when that
    fails (exhausted redraws included), and otherwise always finds the
    mutation of the key it chooses: the run is that mutation, its value
    put under the chosen key of the non-empty valid instance. *)
Theorem partial_mutation_run :
  forall properties fuel s,
    properties <> [] -> partial_run properties fuel s.
Proof.
  intros properties fuel s Hne. unfold partial_run.
  rewrite arbitrary_partial, mutation_partial by assumption.
  destruct (fc.filter (A.partial (AM.arbitraries_of properties)) nonEmpty fuel s)
    as [a s1|e] eqn:Ha; [|unfold fc.chain; now rewrite Ha].
  destruct (filter_Ok _ _ _ _ _ _ _ Ha) as (_ & s0 & Hdraw).
  apply map_Ok in Hdraw. destruct Hdraw as (o & _ & E). subst a.
  destruct (mutate_chosen_field properties (VObj o) fuel s1 Hne)
    as (k & p & Hk & Hp & Hrun).
  exists o, k, p. repeat split; auto.
  unfold fc.chain at 1. rewrite Ha. exact Hrun.
Qed.

(** On [{a?: string, b?: number}]: the empty instance is redrawn, and after
    [{a: "x"}] the key [b] is chosen and its mutation runs. *)
Lemma partial_mutation_run_witness :
  partial_run string_and_number 3 (seed_of [0; 0; 1; 1; 120; 0; 1; 1; 1]).
Proof. apply partial_mutation_run. discriminate. Defined.

(** X9: the corrupted generator of a tuple of arity [n >= 1] fails exactly
    as its valid generator when that fails, and otherwise the index it
    chooses, the next raw draw modulo [n], is always a slot of the valid
    tuple with a mutation: the run is that mutation, its value put in that
    slot. *)
Theorem tuple_mutation_run :
  forall components fuel s,
    components <> [] -> tuple_run components fuel s.
Proof.
  intros components fuel s Hne. unfold tuple_run.
  rewrite arbitrary_tuple, mutation_tuple by assumption.
  destruct (A.tuple (List.map arbitrary components) fuel s) as [t s1|e] eqn:Ht;
    [|unfold fc.chain; now rewrite Ht].
  destruct (A_tuple_Ok _ _ _ _ _ Ht) as (l & E & Hlen). subst t.
  assert (Hn : length components <> 0) by (destruct components; simpl; congruence).
  assert (Hlt : s1 0 mod length components < length components)
    by now apply Nat.mod_upper_bound.
  destruct (nth_error components (s1 0 mod length components)) as [c|] eqn:Hc;
    [|apply nth_error_None in Hc; lia].
  exists l, c. repeat split; auto.
  unfold fc.chain. rewrite Ht.
  rewrite (oneof_constant_run _ _ _ _ _ (pick_index _ (s1 0) Hn)).
  unfold AM.mutate_slot. rewrite nth_error_map, Hc. reflexivity.
Qed.

(** On [[string, number]]: after [["h", 4]] the index [1] is chosen and
    its mutation runs. *)
Lemma tuple_mutation_run_witness :
  tuple_run [AM.string; AM.number] 0 (seed_of [1; 104; 8; 1; 1; 1]).
Proof. apply tuple_mutation_run. discriminate. Defined.

(* ------------------------------------------------------------------------- *)
(** ** Shapes of optional objects, arrays and maps *)
(* ------------------------------------------------------------------------- *)

Lemma keys_assign_incl (T : Type) (o : Obj T) k v k' :
  In k' (keys (assign o k v)) -> k' = k \/ In k' (keys o).
Proof.
  induction o as [|[k0 v0] o IH]; simpl.
  - intros [<-|[]]. now left.
  - destruct (String.eqb k0 k) eqn:E; simpl.
    + intros [<-|H]; auto.
    + intros [<-|H]; auto. destruct (IH H); auto.
Qed.

Lemma A_partial_Ok properties fuel s v s' :
  A.partial (AM.arbitraries_of properties) fuel s = Ok v s' ->
  exists o, v = VObj o /\
            incl (keys o) (keys properties) /\
            forall k x, In (k, x) o ->
                        exists p, In (k, p) properties /\ draws (arbitrary p) x.
Proof.
  intros H. apply map_Ok in H. destruct H as (o & H & ->).
  exists o. split; auto.
  assert (Hfields : forall k x, In (k, x) o ->
            exists p, In (k, p) properties /\ draws (arbitrary p) x).
  { intros k x Hin.
    destruct (partial_fields_Ok _ _ _ _ _ H _ _ Hin) as (g & Hg & Hd).
    unfold AM.arbitraries_of in Hg. apply in_map_iff in Hg.
    destruct Hg as ([k' p] & E & Hp). inversion E; subst. eauto. }
  split; auto.
  intros k Hk. unfold keys in Hk. apply in_map_iff in Hk.
  destruct Hk as ([k' x] & <- & Hin).
  destruct (Hfields _ _ Hin) as (p & Hp & _).
  unfold keys. apply in_map_iff. now exists (k', p).
Qed.

(** X10: a corrupted draw of [partial(properties)] is the empty array when
    no field is declared, and otherwise a non-empty object all of whose
    keys are declared; a valid draw is an object of declared keys, each
    present field holding a value of a valid generator declared under its
    key. *)
Theorem partial_draws_declared_keys :
  forall properties,
    always (mutation (AM.partial properties))
           (fun v => (properties = [] /\ v = VArr []) \/
                     (exists o, v = VObj o /\ o <> [] /\
                                incl (keys o) (keys properties))) /\
    always (arbitrary (AM.partial properties))
           (fun v => exists o,
                v = VObj o /\
                incl (keys o) (keys properties) /\
                forall k x, In (k, x) o ->
                  exists p, In (k, p) properties /\ draws (arbitrary p) x).
Proof.
  intros properties. split; intros fuel s v s' H.
  - destruct properties as [|f properties].
    { left. inversion H. auto. }
    right. apply partial_mutation_Ok in H; [|discriminate].
    destruct H as (a & s1 & k & p & m & Ha & _ & Hk & _ & _ & ->).
    exists (assign a k m). repeat split; [apply assign_not_nil|].
    destruct (filter_Ok _ _ _ _ _ _ _ Ha) as (_ & s0 & Hdraw).
    apply A_partial_Ok in Hdraw. destruct Hdraw as (o & E & Hincl & _).
    inversion E; subst o.
    intros k' Hk'. apply keys_assign_incl in Hk'. destruct Hk' as [->|Hk'].
    + eapply pick_In; eauto.
    + auto.
  - destruct properties as [|f properties].
    { inversion H. exists []. repeat split; [easy|]. intros k x []. }
    rewrite arbitrary_partial in H by discriminate.
    now apply A_partial_Ok in H.
Qed.

(** X11: only the corrupted generators of [array] and [record] are
    filtered: a valid draw of [array(items)] is a sequence of valid draws
    of [items] and can be the empty array, and a valid draw of
    [record(codomain)] is a mapping of valid draws of [codomain] and can
    be the empty mapping. *)
Theorem container_arbitrary_can_be_empty :
  forall child,
    always (arbitrary (AM.array child))
           (fun v => exists l, v = VArr l /\
                               Forall (draws (arbitrary child)) l) /\
    draws (arbitrary (AM.array child)) (VArr []) /\
    always (arbitrary (AM.record child))
           (fun v => exists o, v = VObj o /\
                               Forall (fun kv => draws (arbitrary child) (snd kv)) o) /\
    draws (arbitrary (AM.record child)) (VObj []).
Proof.
  intros child. repeat split.
  - intros fuel s v s' H. simpl in H.
    apply map_Ok in H. destruct H as (l & H & ->). exists l. split; auto.
    eapply array_Ok; [|exact H]. intros s0 x s1 Hx. now exists fuel, s0, s1.
  - exists 0, (seed_of []), (shift (seed_of [])). reflexivity.
  - intros fuel s v s' H. simpl in H.
    apply map_Ok in H. destruct H as (o & H & ->). exists o. split; auto.
    eapply dictionary_Ok; [|exact H]. intros s0 x s1 Hx. now exists fuel, s0, s1.
  - exists 0, (seed_of []), (shift (seed_of [])). reflexivity.
Qed.

(* ------------------------------------------------------------------------- *)
(** ** Valid draws are valid *)
(* ------------------------------------------------------------------------- *)

Lemma distinct_NoDup l : distinct l = true -> NoDup l.
Proof.
  induction l as [|k l IH]; simpl; intros H; [constructor|].
  apply andb_prop in H. destruct H as [Hk Hl]. constructor; auto.
  intros Hin. apply negb_true_iff in Hk.
  assert (existsb (String.eqb k) l = true); [|congruence].
  apply existsb_exists. exists k. split; auto. apply String.eqb_refl.
Qed.

Lemma In_get_wf (T : Type) (o : Obj T) k v :
  wf_obj o -> In (k, v) o -> get o k = Some v.
Proof.
  unfold wf_obj. induction o as [|[k' v'] o IH]; simpl; intros Hnd Hin; [easy|].
  inversion Hnd as [|? ? Hnotin Hnd']; subst.
  destruct Hin as [E|Hin].
  - inversion E; subst. now rewrite String.eqb_refl.
  - destruct (String.eqb k' k) eqn:E; auto.
    apply String.eqb_eq in E. subst k'. exfalso. apply Hnotin.
    unfold keys. change k with (fst (k, v)). now apply in_map.
Qed.

Lemma get_interp_of_fields (fields : Obj SchemaNode) k :
  get (List.map (fun f => (fst f, interp (snd f))) fields) k =
  option_map interp (get fields k).
Proof.
  induction fields as [|[k' c] fields IH]; simpl; auto.
  destruct (String.eqb k' k); auto.
Qed.

Lemma simple_fields (fields : Obj SchemaNode) :
  distinct (keys fields) && forallb (fun f => simple (snd f)) fields = true ->
  wf_obj fields /\ forall k c, In (k, c) fields -> simple c = true.
Proof.
  intros H. apply andb_prop in H. destruct H as [Hd Hs]. split.
  - now apply distinct_NoDup.
  - intros k c Hin. rewrite forallb_forall in Hs. apply (Hs (k, c) Hin).
Qed.

(** Slot by slot valid draws make a valid tuple. *)
Lemma forallb2_valid_slots (cs : list SchemaNode) fuel :
  Forall (fun c => forall s v s',
            arbitrary (interp c) fuel s = Ok v s' -> valid c v = true) cs ->
  forall l,
    Forall2 (fun g x => exists s0 s1, g fuel s0 = Ok x s1)
            (List.map arbitrary (List.map interp cs)) l ->
    forallb2 valid cs l = true.
Proof.
  induction 1 as [|c cs Hc _ IH]; simpl; intros l H2; inversion H2; subst; auto.
  destruct H1 as (s0 & s1 & Hx). rewrite (Hc _ _ _ Hx). simpl. auto.
Qed.

(** On a simple node every draw of the valid generator is valid. *)
Lemma simple_arbitrary_valid n :
  simple n = true ->
  forall fuel s v s', arbitrary (interp n) fuel s = Ok v s' -> valid n v = true.
Proof.
  induction n using SchemaNode_tree_ind; simpl simple; intros Hs fuel s v s' Hv;
    try discriminate.
  - (* literal *)
    apply G_literal_spec. apply A_literal_draws. now exists fuel, s, s'.
  - apply map_Ok in Hv. destruct Hv as (x & _ & ->). reflexivity.
  - apply map_Ok in Hv. destruct Hv as (x & _ & ->). reflexivity.
  - apply map_Ok in Hv. destruct Hv as (x & _ & ->). reflexivity.
  - apply map_Ok in Hv. destruct Hv as (x & _ & ->). reflexivity.
  - apply map_Ok in Hv. destruct Hv as (x & _ & ->). reflexivity.
  - (* nullable *)
    cbn [interp] in Hv. simpl in Hv. unfold A.union in Hv. oneof_split Hv.
    + inversion Hv. reflexivity.
    + pose proof (IHn Hs _ _ _ _ Hv) as Hc. simpl. destruct v; auto.
  - (* required object *)
    destruct (simple_fields _ Hs) as [Hwf Hsimple].
    destruct fields as [|f fields].
    { inversion Hv. reflexivity. }
    remember (f :: fields) as fs eqn:Efs.
    assert (Hne : List.map (fun f => (fst f, interp (snd f))) fs <> [])
      by (subst; discriminate).
    clear Efs. rename fs into fields'.
    cbn [interp] in Hv. rewrite arbitrary_type in Hv by assumption.
    apply A_type_Ok in Hv. destruct Hv as (a & -> & _ & Hfields).
    simpl valid. apply forallb_forall. intros [k c] Hin. simpl.
    destruct (Hfields k (interp c)) as (x & -> & (fuel0 & s0 & s1 & Hx)).
    { rewrite get_interp_of_fields, (In_get_wf _ _ _ _ Hwf Hin). reflexivity. }
    rewrite Forall_forall in H. apply (H (k, c) Hin) with fuel0 s0 s1; eauto.
  - (* optional object *)
    destruct (simple_fields _ Hs) as [Hwf Hsimple].
    destruct fields as [|f fields].
    { inversion Hv. reflexivity. }
    remember (f :: fields) as fs eqn:Efs.
    assert (Hne : List.map (fun f => (fst f, interp (snd f))) fs <> [])
      by (subst; discriminate).
    clear Efs. rename fs into fields'.
    cbn [interp] in Hv. rewrite arbitrary_partial in Hv by assumption.
    apply A_partial_Ok in Hv. destruct Hv as (o & -> & _ & Hfields).
    simpl valid. apply forallb_forall. intros [k c] Hin. simpl.
    destruct (get o k) as [x|] eqn:G; auto.
    apply get_In in G. destruct (Hfields _ _ G) as (p & Hp & (fuel0 & s0 & s1 & Hx)).
    apply in_map_iff in Hp. destruct Hp as ([k' c'] & E & Hin').
    simpl in E. inversion E; subst k' p.
    assert (c' = c).
    { apply (In_get_wf _ _ _ _ Hwf) in Hin. apply (In_get_wf _ _ _ _ Hwf) in Hin'.
      congruence. }
    subst c'. rewrite Forall_forall in H. apply (H (k, c) Hin) with fuel0 s0 s1; eauto.
  - (* map *)
    cbn [interp] in Hv. simpl in Hv.
    apply map_Ok in Hv. destruct Hv as (o & Hv & ->).
    apply (dictionary_Ok _ (fun x => valid n x = true)) in Hv;
      [|intros s0 x s1 Hx; eapply IHn; eauto].
    simpl. apply forallb_forall. rewrite Forall_forall in Hv. auto.
  - (* tuple *)
    cbn [interp] in Hv. rewrite arbitrary_tuple in Hv.
    apply map_Ok in Hv. destruct Hv as (l & Hv & ->).
    apply (tuple_Ok _ (fun g x => exists s0 s1, g fuel s0 = Ok x s1)) in Hv;
      [|intros g s0 x s1 Hx; eauto].
    simpl valid. apply forallb2_valid_slots with fuel; auto.
    rewrite Forall_forall in *. intros c Hc s0 x s1 Hx.
    apply (H c Hc) with fuel s0 s1; auto.
    rewrite forallb_forall in Hs. auto.
  - (* array *)
    cbn [interp] in Hv. simpl in Hv.
    apply map_Ok in Hv. destruct Hv as (l & Hv & ->).
    apply (array_Ok _ (fun x => valid n x = true)) in Hv;
      [|intros s0 x s1 Hx; eapply IHn; eauto].
    simpl. apply forallb_forall. rewrite Forall_forall in Hv. auto.
  - (* union *)
    cbn [interp] in Hv. simpl in Hv. unfold A.union in Hv.
    apply oneof_cases in Hv. destruct Hv as (g & Hin & Hv).
    rewrite List.map_map in Hin. apply in_map_iff in Hin.
    destruct Hin as (c & <- & Hc).
    simpl. apply existsb_exists. exists c. split; auto.
    rewrite Forall_forall in H. apply (H c Hc) with fuel (shift s) s'; auto.
    rewrite forallb_forall in Hs. auto.
Qed.

(** X1: for every schema node in which each object declares a key once and
    which has no intersection and no tagged union, every value drawn from
    the valid generator is structurally valid for the node. *)
Theorem simple_node_arbitrary_always_valid :
  forall n fuel s v s',
    simple n = true ->
    arbitrary (interp n) fuel s = Ok v s' ->
    valid n v = true.
Proof.
  intros n fuel s v s' Hs H. eapply simple_arbitrary_valid; eauto.
Qed.

(** The valid draw [{a: "h", b: 4}] of [{a: string, b: number}]. *)
Lemma simple_node_arbitrary_always_valid_witness :
  valid a_string_b_number (VObj [("a", VStr "h"); ("b", VNum 4)]) = true.
Proof.
  apply (simple_node_arbitrary_always_valid
           a_string_b_number 0 (seed_of [1; 104; 8])
           (VObj [("a", VStr "h"); ("b", VNum 4)]) (seed_of [])).
  - reflexivity.
  - run_generator.
Defined.

(* ------------------------------------------------------------------------- *)
(** ** Exactly one fault *)
(* ------------------------------------------------------------------------- *)

Lemma keys_interp_fields (fields : Obj SchemaNode) :
  keys (List.map (fun f => (fst f, interp (snd f))) fields) = keys fields.
Proof. unfold keys. rewrite List.map_map. reflexivity. Qed.

Lemma plain_fields (fields : Obj SchemaNode) k c :
  forallb (fun f => plain (snd f)) fields = true ->
  In (k, c) fields -> plain c = true.
Proof. intros H Hin. rewrite forallb_forall in H. apply (H (k, c) Hin). Qed.

Lemma Forall2_nth_error (T U : Type) (R : T -> U -> Prop) l l' :
  Forall2 R l l' ->
  forall j a, nth_error l j = Some a ->
              exists b, nth_error l' j = Some b /\ R a b.
Proof.
  induction 1 as [|x y l l' Hxy _ IH]; intros [|j] a; simpl; try discriminate.
  - intros E. inversion E; subst. eauto.
  - apply IH.
Qed.

(** Every slot of a valid tuple is a draw of its component's valid
    generator. *)
Lemma A_tuple_slots components fuel s t s' :
  A.tuple (List.map arbitrary components) fuel s = Ok (VArr t) s' ->
  forall j p, nth_error components j = Some p ->
              exists x, nth_error t j = Some x /\ draws (arbitrary p) x.
Proof.
  intros H j p Hp. apply map_Ok in H. destruct H as (l & H & E).
  inversion E; subst l.
  apply (tuple_Ok _ (fun g x => draws g x)) in H;
    [|intros g s0 x s1 Hx; now exists fuel, s0, s1].
  apply (Forall2_nth_error _ _ _ _ _ H j (arbitrary p)).
  rewrite nth_error_map, Hp. reflexivity.
Qed.

(** X12: for a required object with at least one field, each key declared
    once and every field built without intersection, tagged union, union
    and nullable, every corrupted draw holds all the declared fields and
    exactly one of them, under a declared key, is invalid for its node:
    never none, never two. *)
Theorem type_mutation_exactly_one_invalid_field :
  forall fields fuel s v s',
    fields <> [] ->
    simple (ObjectRequired fields) = true ->
    plain (ObjectRequired fields) = true ->
    mutation (interp (ObjectRequired fields)) fuel s = Ok v s' ->
    exists o k, v = VObj o /\ In k (keys fields) /\
                only_field_invalid fields o k.
Proof.
  intros fields fuel s v s' Hne Hs Hp H.
  destruct (simple_fields _ Hs) as [Hwf Hsimple]. simpl in Hp.
  cbn [interp] in H. apply type_mutation_Ok in H;
    [|intros E; apply map_eq_nil in E; congruence].
  destruct H as (a & s1 & k & p & m & Ha & Hk & Hget & Hm & ->).
  apply A_type_Ok in Ha. destruct Ha as (a' & E & _ & Hfields).
  inversion E; subst a'. clear E.
  apply pick_In in Hk. rewrite keys_interp_fields in Hk.
  exists (assign a k m), k. repeat split; auto.
  intros k' c Hin.
  pose proof (In_get_wf _ _ _ _ Hwf Hin) as Hc.
  destruct (String.eqb k' k) eqn:E.
  - apply String.eqb_eq in E. subst k'.
    exists m. split; [apply get_assign_same|]. simpl.
    rewrite get_interp_of_fields, Hc in Hget. inversion Hget; subst p.
    eapply plain_mutation_invalid; eauto. eapply plain_fields; eauto.
  - assert (Hneq : k' <> k) by (intros ->; now rewrite String.eqb_refl in E).
    destruct (Hfields k' (interp c)) as (x & Hx & (fuel0 & s0 & s2 & Hd)).
    { rewrite get_interp_of_fields, Hc. reflexivity. }
    exists x. rewrite get_assign_other by assumption. split; auto. simpl.
    eapply simple_arbitrary_valid; eauto.
Qed.

(** In the corrupted draw [{a: "h", b: true}] of [{a: string, b: number}]
    exactly [b] is invalid. *)
Lemma type_mutation_exactly_one_invalid_field_witness :
  exists o k, VObj [("a", VStr "h"); ("b", VBool true)] = VObj o /\
              In k (keys [("a", StringPrim); ("b", NumberPrim)]) /\
              only_field_invalid [("a", StringPrim); ("b", NumberPrim)] o k.
Proof.
  apply (type_mutation_exactly_one_invalid_field
           [("a", StringPrim); ("b", NumberPrim)]
           0 (seed_of [1; 104; 8; 1; 1; 1])
           (VObj [("a", VStr "h"); ("b", VBool true)]) (seed_of [])).
  - discriminate.
  - reflexivity.
  - reflexivity.
  - run_generator.
Defined.

(** X13: for a tuple of arity [n >= 1] whose components are built without
    intersection, tagged union, union and nullable (each object declaring
    a key once), every corrupted draw is a sequence of [n] slots of which
    exactly one is invalid for its component. *)
Theorem tuple_mutation_exactly_one_invalid_slot :
  forall components fuel s v s',
    components <> [] ->
    forallb simple components = true ->
    forallb plain components = true ->
    mutation (interp (TupleOf components)) fuel s = Ok v s' ->
    exists l i, v = VArr l /\ length l = length components /\
                i < length components /\
                only_slot_invalid components l i.
Proof.
  intros components fuel s v s' Hne Hs Hp H.
  cbn [interp] in H. apply tuple_mutation_Ok in H;
    [|intros E; apply map_eq_nil in E; congruence].
  destruct H as (t & s1 & i & p & m & Ht & Hlen & _ & Hlt & Hget & Hm & ->).
  rewrite length_map in Hlen, Hlt.
  exists (unsafeUpdateAt i m t), i. repeat split; auto.
  { rewrite unsafeUpdateAt_length; lia. }
  intros j c Hc.
  assert (Hin : In c components) by (eapply nth_error_In; eauto).
  rewrite forallb_forall in Hs, Hp.
  destruct (Nat.eqb j i) eqn:E.
  - apply Nat.eqb_eq in E. subst j.
    exists m. split; [apply unsafeUpdateAt_same|]. simpl.
    rewrite nth_error_map, Hc in Hget. inversion Hget; subst p.
    eapply plain_mutation_invalid; eauto.
  - apply Nat.eqb_neq in E.
    destruct (A_tuple_slots _ _ _ _ _ Ht j (interp c))
      as (x & Hx & (fuel0 & s0 & s2 & Hd)).
    { rewrite nth_error_map, Hc. reflexivity. }
    exists x. rewrite unsafeUpdateAt_other by lia. split; auto. simpl.
    eapply simple_arbitrary_valid; eauto.
Qed.

(** In the corrupted draw [["h", true]] of [[string, number]] exactly the
    slot [1] is invalid. *)
Lemma tuple_mutation_exactly_one_invalid_slot_witness :
  exists l i, VArr [VStr "h"; VBool true] = VArr l /\
              length l = length [StringPrim; NumberPrim] /\
              i < length [StringPrim; NumberPrim] /\
              only_slot_invalid [StringPrim; NumberPrim] l i.
Proof.
  apply (tuple_mutation_exactly_one_invalid_slot
           [StringPrim; NumberPrim] 0 (seed_of [1; 104; 8; 1; 1; 1])
           (VArr [VStr "h"; VBool true]) (seed_of [])).
  - discriminate.
  - reflexivity.
  - reflexivity.
  - run_generator.
Defined.

(* ------------------------------------------------------------------------- *)
(** ** Intersections of objects with no key in common *)
(* ------------------------------------------------------------------------- *)

Lemma get_not_declared (T : Type) (o : Obj T) k :
  ~ In k (keys o) -> get o k = None.
Proof.
  intros Hnot. destruct (get o k) as [v|] eqn:G; auto.
  apply get_In in G. exfalso. apply Hnot.
  unfold keys. change k with (fst (k, v)). now apply in_map.
Qed.

Lemma keys_rev (T : Type) (o : Obj T) : keys (rev o) = rev (keys o).
Proof. unfold keys. apply map_rev. Qed.

(** A merge is looked up on the right first, then on the left. *)
Lemma get_merged (a b : Obj Value) k :
  wf_obj b ->
  get (spread (A.intersect (VObj a) (VObj b))) k =
  match get b k with
  | Some x => Some x
  | None => get a k
  end.
Proof.
  intros Hwf. simpl. rewrite get_assign_all. now rewrite get_rev_wf.
Qed.

Lemma forallb_same_on (T : Type) (f g : T -> bool) (l : list T) :
  (forall x, In x l -> f x = g x) -> forallb f l = forallb g l.
Proof.
  induction l as [|x l IH]; simpl; intros H; auto.
  rewrite (H x), IH; auto.
Qed.

(** Validity of a required object only looks at the declared fields. *)
Lemma valid_required_ext (fields : Obj SchemaNode) (o o' : Obj Value) :
  (forall k, In k (keys fields) -> get o k = get o' k) ->
  valid (ObjectRequired fields) (VObj o) =
  valid (ObjectRequired fields) (VObj o').
Proof.
  intros Hsame. simpl. apply forallb_same_on. intros [k c] Hin. simpl.
  rewrite Hsame; auto.
  unfold keys. change k with (fst (k, c)). now apply in_map.
Qed.

(** A draw of either generator of a required object with fields is an
    object with exactly the declared keys. *)
Lemma required_object_keys (fields : Obj SchemaNode) fuel s v s' :
  fields <> [] ->
  mutation (interp (ObjectRequired fields)) fuel s = Ok v s' \/
  arbitrary (interp (ObjectRequired fields)) fuel s = Ok v s' ->
  exists o, v = VObj o /\ keys o = keys fields.
Proof.
  intros Hne H.
  assert (Hne' : List.map (fun f => (fst f, interp (snd f))) fields <> [])
    by (intros E; apply map_eq_nil in E; congruence).
  cbn [interp] in H. destruct H as [H|H].
  - apply type_mutation_Ok in H; auto.
    destruct H as (a & s1 & k & p & m & Ha & Hk & _ & _ & ->).
    apply A_type_Ok in Ha. destruct Ha as (a' & E & Hkeys & _).
    inversion E; subst a'. exists (assign a k m). split; auto.
    rewrite keys_assign_present; [now rewrite Hkeys, keys_interp_fields|].
    rewrite Hkeys. eapply pick_In; eauto.
  - rewrite arbitrary_type in H by assumption.
    apply A_type_Ok in H. destruct H as (a & -> & Hkeys & _).
    exists a. split; auto. now rewrite Hkeys, keys_interp_fields.
Qed.

(** On two objects that share no declared key, the merge is as valid for
    each side as that side's own object. *)
Lemma valid_merged_disjoint (fa fb : Obj SchemaNode) (a b : Obj Value) :
  keys a = keys fa -> keys b = keys fb -> wf_obj fb ->
  (forall k, In k (keys fa) -> ~ In k (keys fb)) ->
  valid (ObjectRequired fa) (A.intersect (VObj a) (VObj b)) =
  valid (ObjectRequired fa) (VObj a) /\
  valid (ObjectRequired fb) (A.intersect (VObj a) (VObj b)) =
  valid (ObjectRequired fb) (VObj b).
Proof.
  intros Ha Hb Hwf Hdisj.
  assert (Hwfb : wf_obj b) by (unfold wf_obj; now rewrite Hb).
  split; apply valid_required_ext; intros k Hk;
    pose proof (get_merged a b k Hwfb) as Hm; simpl in Hm; simpl; rewrite Hm.
  - rewrite get_not_declared; auto. rewrite Hb. auto.
  - destruct (get_keys _ b k) as (x & ->); auto. now rewrite Hb.
Qed.

(** X14: for the intersection of two required objects with fields and no
    declared key in common, the fields built without nullable, union,
    tagged union and intersection, every corrupted draw fails the validity
    of both sides at once. *)
Theorem intersection_mutation_fails_both_disjoint_objects :
  forall fa fb fuel s v s',
    fa <> [] -> fb <> [] ->
    wf_obj fb ->
    (forall k, In k (keys fa) -> ~ In k (keys fb)) ->
    plain (ObjectRequired fa) = true ->
    plain (ObjectRequired fb) = true ->
    mutation (interp (Intersection (ObjectRequired fa) (ObjectRequired fb)))
             fuel s = Ok v s' ->
    valid (ObjectRequired fa) v = false /\
    valid (ObjectRequired fb) v = false.
Proof.
  intros fa fb fuel s v s' Hna Hnb Hwf Hdisj Hpa Hpb H.
  cbn [interp] in H. apply intersection_mutation_Ok in H.
  destruct H as (x & s1 & y & Hx & Hy & ->).
  destruct (required_object_keys fa _ _ _ _ Hna (or_introl Hx)) as (a & -> & Ha).
  destruct (required_object_keys fb _ _ _ _ Hnb (or_introl Hy)) as (b & -> & Hb).
  destruct (valid_merged_disjoint fa fb a b Ha Hb Hwf Hdisj) as [-> ->].
  split; eapply plain_mutation_invalid; eauto.
Qed.

(** [intersection({a: string}, {b: number})]: the corrupted draw
    [{a: 2, b: "x"}] fails both sides. *)
Lemma intersection_mutation_fails_both_disjoint_objects_witness :
  valid (ObjectRequired [("a", StringPrim)])
        (VObj [("a", VNum 2); ("b", VStr "x")]) = false /\
  valid (ObjectRequired [("b", NumberPrim)])
        (VObj [("a", VNum 2); ("b", VStr "x")]) = false.
Proof.
  apply (intersection_mutation_fails_both_disjoint_objects
           [("a", StringPrim)] [("b", NumberPrim)]
           0 (seed_of [0; 0; 0; 4; 2; 0; 0; 1; 120])
           (VObj [("a", VNum 2); ("b", VStr "x")]) (seed_of [])).
  - discriminate.
  - discriminate.
  - repeat constructor; simpl; intuition.
  - simpl. intros k [<-|[]] [E|[]]. discriminate.
  - reflexivity.
  - reflexivity.
  - run_generator.
Defined.

(** X15: for the intersection of two required objects with fields and no
    declared key in common, each declaring a key once and built without
    intersection and tagged union, every valid draw is valid for the
    intersection. *)
Theorem intersection_arbitrary_valid_disjoint_objects :
  forall fa fb fuel s v s',
    fa <> [] -> fb <> [] ->
    (forall k, In k (keys fa) -> ~ In k (keys fb)) ->
    simple (ObjectRequired fa) = true ->
    simple (ObjectRequired fb) = true ->
    arbitrary (interp (Intersection (ObjectRequired fa) (ObjectRequired fb)))
              fuel s = Ok v s' ->
    valid (Intersection (ObjectRequired fa) (ObjectRequired fb)) v = true.
Proof.
  intros fa fb fuel s v s' Hna Hnb Hdisj Hsa Hsb H.
  cbn [interp] in H. simpl in H.
  apply chain_Ok in H. destruct H as (x & s1 & Hx & H).
  apply map_Ok in H. destruct H as (y & Hy & ->).
  destruct (required_object_keys fa _ _ _ _ Hna (or_intror Hx)) as (a & -> & Ha).
  destruct (required_object_keys fb _ _ _ _ Hnb (or_intror Hy)) as (b & -> & Hb).
  destruct (simple_fields _ Hsb) as [Hwf _].
  change (valid (ObjectRequired fa) (A.intersect (VObj a) (VObj b)) &&
          valid (ObjectRequired fb) (A.intersect (VObj a) (VObj b)) = true).
  destruct (valid_merged_disjoint fa fb a b Ha Hb Hwf Hdisj) as [-> ->].
  apply andb_true_intro.
  split; eapply (simple_arbitrary_valid (ObjectRequired _)); eauto.
Qed.

(** [intersection({a: string}, {b: number})]: the valid draw
    [{a: "h", b: 4}]. *)
Lemma intersection_arbitrary_valid_disjoint_objects_witness :
  valid (Intersection (ObjectRequired [("a", StringPrim)])
                      (ObjectRequired [("b", NumberPrim)]))
        (VObj [("a", VStr "h"); ("b", VNum 4)]) = true.
Proof.
  apply (intersection_arbitrary_valid_disjoint_objects
           [("a", StringPrim)] [("b", NumberPrim)]
           0 (seed_of [1; 104; 8])
           (VObj [("a", VStr "h"); ("b", VNum 4)]) (seed_of [])).
  - discriminate.
  - discriminate.
  - simpl. intros k [<-|[]] [E|[]]. discriminate.
  - reflexivity.
  - reflexivity.
  - run_generator.
Defined.

(* ------------------------------------------------------------------------- *)
(** ** Which corrupted draws of a choice are valid *)
(* ------------------------------------------------------------------------- *)

(** X16: for [nullable(inner)] with [inner] built without nullable, union,
    tagged union and intersection, a corrupted draw is valid for the node
    only in two ways: it is [null] (drawn by [inner]'s corrupted
    generator), or it is the placeholder [{}] and [inner] accepts the
    empty object. *)
Theorem nullable_mutation_valid_only_null_or_placeholder :
  forall inner fuel s v s',
    plain inner = true ->
    mutation (interp (Nullable inner)) fuel s = Ok v s' ->
    valid (Nullable inner) v = true ->
    v = VNull \/ (v = VObj [] /\ valid inner (VObj []) = true).
Proof.
  intros inner fuel s v s' Hp H Hvalid.
  cbn [interp] in H. simpl in H. unfold A.union in H. oneof_split H.
  - inversion H; subst v. right. split; auto.
  - pose proof (plain_mutation_invalid _ Hp _ _ _ _ H) as Hinv.
    simpl in Hvalid. destruct v; auto; congruence.
Qed.

(** [nullable(UnknownRecord)]: the valid corrupted draw is the
    placeholder. *)
Lemma nullable_mutation_valid_only_null_or_placeholder_witness :
  VObj [] = VNull \/
  (VObj [] = VObj [] /\ valid UnknownRecordPrim (VObj []) = true).
Proof.
  apply (nullable_mutation_valid_only_null_or_placeholder
           UnknownRecordPrim 0 (seed_of [0]) (VObj []) (seed_of [])).
  - reflexivity.
  - run_generator.
  - reflexivity.
Defined.


